(** * jsdom-extended: a shallow embedding of the mocks and their properties

    The package patches a jsdom window with four mocks (geometry,
    requestAnimationFrame, ResizeObserver, location helpers).  Each source
    function is rendered as a Rocq function over an explicit state; host
    facilities the code calls (timers, the console, [Object.defineProperty])
    are modelled next to the code that uses them. *)

From stdpp Require Import gmap strings list fin_maps.

Open Scope Z_scope.

(* ===================================================================== *)
(** * The host: objects, properties and completions                       *)
(* ===================================================================== *)

Module JS.

(** Function objects the model has to tell apart.  Two function values
    are the same object exactly when they are equal here. *)
Inductive fn :=
| MockRect (n : nat)
    (* the method created by the n-th evaluation of the literal
       [{ value() { return {...}; } }] of patchGeometry *)
| RafRequest (k : nat)
| RafCancel (k : nat)
    (* the two arrow functions of the k-th call of patchRAF *)
| FakeResizeObserverClass
    (* the class of resize-observer.ts: one object per loaded module *)
| Native (name : string).
    (* a function that belongs to the host *)

Inductive value :=
| VUndefined
| VBoolean (b : bool)
| VNumber (n : Z)
| VString (s : string)
| VFunction (f : fn).

#[global] Instance fn_eq_dec : EqDecision fn.
Proof. solve_decision. Defined.

#[global] Instance value_eq_dec : EqDecision value.
Proof. solve_decision. Defined.

(** A property of an object: a data property or an accessor property,
    with its attributes. *)
Inductive property :=
| Data (v : value) (writable enumerable configurable : bool)
| Accessor (get set : value) (enumerable configurable : bool).

Definition is_accessor (p : property) : bool :=
  match p with Data _ _ _ _ => false | Accessor _ _ _ _ => true end.

Definition prop_enumerable (p : property) : bool :=
  match p with Data _ _ e _ => e | Accessor _ _ e _ => e end.

Definition prop_configurable (p : property) : bool :=
  match p with Data _ _ _ c => c | Accessor _ _ _ c => c end.

(** A Property Descriptor: every field may be absent. *)
Record descriptor := mkDesc {
  d_value : option value;
  d_writable : option bool;
  d_get : option value;
  d_set : option value;
  d_enumerable : option bool;
  d_configurable : option bool;
}.

Definition IsAccessorDescriptor (d : descriptor) : bool :=
  bool_decide (is_Some (d_get d)) || bool_decide (is_Some (d_set d)).

Definition IsDataDescriptor (d : descriptor) : bool :=
  bool_decide (is_Some (d_value d)) || bool_decide (is_Some (d_writable d)).

Definition IsGenericDescriptor (d : descriptor) : bool :=
  negb (IsAccessorDescriptor d) && negb (IsDataDescriptor d).

(** [Desc] has the field and it is not the same value as the current
    attribute ([SameValue] is equality on the values above). *)
Definition differs {A} `{EqDecision A} (field : option A) (cur : A) : bool :=
  match field with Some x => negb (bool_decide (x = cur)) | None => false end.

(** ValidateAndApplyPropertyDescriptor of ECMAScript (10.1.6.3), for an
    object that exists: [None] is the answer [false], [Some p] is the
    property after the call. *)
Definition ValidateAndApplyPropertyDescriptor
    (extensible : bool) (Desc : descriptor) (current : option property)
  : option property :=
  match current with
  | None =>
      if negb extensible then None
      else if IsAccessorDescriptor Desc then
        Some (Accessor (default VUndefined (d_get Desc))
                       (default VUndefined (d_set Desc))
                       (default false (d_enumerable Desc))
                       (default false (d_configurable Desc)))
      else
        Some (Data (default VUndefined (d_value Desc))
                   (default false (d_writable Desc))
                   (default false (d_enumerable Desc))
                   (default false (d_configurable Desc)))
  | Some cur =>
      let refused :=
        negb (prop_configurable cur) &&
        (bool_decide (d_configurable Desc = Some true)
         || differs (d_enumerable Desc) (prop_enumerable cur)
         || (negb (IsGenericDescriptor Desc) &&
             negb (bool_decide (IsAccessorDescriptor Desc = is_accessor cur)))
         || match cur with
            | Accessor g s _ _ =>
                differs (d_get Desc) g || differs (d_set Desc) s
            | Data v w _ _ =>
                negb w &&
                (bool_decide (d_writable Desc = Some true)
                 || differs (d_value Desc) v)
            end) in
      if refused then None
      else
        let e := default (prop_enumerable cur) (d_enumerable Desc) in
        let c := default (prop_configurable cur) (d_configurable Desc) in
        match cur with
        | Data v w _ _ =>
            if IsAccessorDescriptor Desc then
              Some (Accessor (default VUndefined (d_get Desc))
                             (default VUndefined (d_set Desc)) e c)
            else
              Some (Data (default v (d_value Desc))
                         (default w (d_writable Desc)) e c)
        | Accessor g s _ _ =>
            if IsDataDescriptor Desc then
              Some (Data (default VUndefined (d_value Desc))
                         (default false (d_writable Desc)) e c)
            else
              Some (Accessor (default g (d_get Desc))
                             (default s (d_set Desc)) e c)
        end
  end.

(** An object: its own properties, its [[Extensible]] slot, and its
    prototype chain, nearest prototype first.  Prototypes are named, not
    copied: a change of a prototype is seen by every object that has it
    on its chain. *)
Record object := mkObject {
  props : gmap string property;
  extensible : bool;
  protos : list nat;
}.

Definition with_prop (o : object) (p : string) (pr : property) : object :=
  {| props := <[p := pr]> (props o); extensible := extensible o;
     protos := protos o |}.

Inductive error := TypeError (msg : string).

(** How an operation ends: normally, by throwing, or inside a function
    of the host, whose code is not part of the package. *)
Inductive completion (A : Type) :=
| Normal (a : A)
| Throw (e : error)
| Foreign (f : value).
Arguments Normal {A} a.
Arguments Throw {A} e.
Arguments Foreign {A} f.

(** [Object.defineProperty(O, P, Attributes)]: a TypeError when [O] is
    not an object, when [Attributes] mixes accessor and data fields, or
    when the definition is refused. *)
Definition defineProperty (O : nat) (P : string) (Desc : descriptor)
    (h : gmap nat object) : completion (gmap nat object) :=
  match h !! O with
  | None => Throw (TypeError "Object.defineProperty called on non-object")
  | Some o =>
      if IsAccessorDescriptor Desc && IsDataDescriptor Desc then
        Throw (TypeError "Invalid property descriptor")
      else
        match ValidateAndApplyPropertyDescriptor
                (extensible o) Desc (props o !! P) with
        | None => Throw (TypeError ("Cannot redefine property: " +:+ P))
        | Some pr => Normal (<[O := with_prop o P pr]> h)
        end
  end.

(** The own property [P] of object [l], if it has one. *)
Definition own (h : gmap nat object) (l : nat) (P : string) : option property :=
  h !! l ≫= (λ o, props o !! P).

(** The first object of [chain] that has an own property [P], and that
    property. *)
Fixpoint find_property (h : gmap nat object) (chain : list nat) (P : string)
  : option property :=
  match chain with
  | [] => None
  | l :: chain' =>
      match own h l P with
      | Some pr => Some pr
      | None => find_property h chain' P
      end
  end.

(** [O.P], the ordinary [[Get]]. *)
Definition get (h : gmap nat object) (O : nat) (P : string)
  : completion value :=
  match h !! O with
  | None => Throw (TypeError "Cannot read properties of undefined")
  | Some o =>
      match find_property h (O :: protos o) P with
      | None => Normal VUndefined
      | Some (Data v _ _ _) => Normal v
      | Some (Accessor VUndefined _ _ _) => Normal VUndefined
      | Some (Accessor g _ _ _) => Foreign g
      end
  end.

(** [O.P = V] in strict code (modules are strict): the ordinary [[Set]],
    whose answer [false] becomes a TypeError. *)
Definition set (h : gmap nat object) (O : nat) (P : string) (V : value)
  : completion (gmap nat object) :=
  match h !! O with
  | None => Throw (TypeError "Cannot set properties of undefined")
  | Some o =>
      let define d :=
        match ValidateAndApplyPropertyDescriptor
                (extensible o) d (props o !! P) with
        | None => Throw (TypeError ("Cannot assign to property " +:+ P))
        | Some pr => Normal (<[O := with_prop o P pr]> h)
        end in
      let on_receiver :=
        match props o !! P with
        | Some (Accessor _ _ _ _) | Some (Data _ false _ _) =>
            Throw (TypeError ("Cannot assign to property " +:+ P))
        | Some (Data _ true _ _) =>
            define (mkDesc (Some V) None None None None None)
        | None =>
            define (mkDesc (Some V) (Some true) None None
                           (Some true) (Some true))
        end in
      match find_property h (O :: protos o) P with
      | Some (Accessor _ VUndefined _ _) | Some (Data _ false _ _) =>
          Throw (TypeError ("Cannot assign to property " +:+ P))
      | Some (Accessor _ s _ _) => Foreign s
      | Some (Data _ true _ _) | None => on_receiver
      end
  end.

End JS.

(* ===================================================================== *)
(** * mocks/raf.ts                                                        *)
(* ===================================================================== *)

Module Raf.

(** Frame callbacks are opaque user code: a callback is named by a number
    and its invocation is recorded in the history.  Whatever a callback
    does to the shim once it runs (schedule again, cancel) is a later
    event of the trace: the timer body calls it last. *)
Abbreviation Callback := nat (only parsing).

(** [NodeJS.Timeout] objects, as returned by the global [setTimeout]. *)
Abbreviation Timeout := nat (only parsing).

(** A window passed to [patchRAF]; it is only used for its clock. *)
Abbreviation WindowRef := nat (only parsing).

(** The arrow function given to [setTimeout]:
    [() => { rafHandles.delete(id); cb(win.performance.now()); }].
    It captures [id], [cb] and [win]. *)
Record Task := mkTask { task_id : Z; task_cb : Callback; task_win : WindowRef }.

(** The activation record of one call of [patchRAF]: [let rafId = 0] and
    the parameter [win], shared by the two arrow functions it installs. *)
Record Closure := mkClosure { rafId : Z; c_win : WindowRef }.

(** What crosses the boundary of the shim, in the order it happens. *)
Inductive obs :=
| ORequest (k : nat) (cb : Callback) (id : Z) (t : Timeout)
    (* requestAnimationFrame(cb) of installation k armed t and returned id *)
| OCancel (k : nat) (id : Z)
    (* cancelAnimationFrame(id) of installation k was called *)
| OInvoke (t : Timeout) (cb : Callback) (now : Z).
    (* timer t expired and its body called cb(now) *)

(** [rafHandles] is the module-level [const rafHandles = new Map()]: there
    is one per loaded module, whatever the number of [patchRAF] calls.
    Handles are JS numbers that only ever hold integers here ([Z]; the
    counter stays far below 2^53, where increments are exact).
    [closures] holds one activation record per [patchRAF] call, [timers]
    is the host's queue of armed timeouts. *)
Record State := mkState {
  rafHandles : gmap Z nat;
  closures : list Closure;
  timers : gmap nat Task;
  next_timeout : nat;
  history : list obs;
}.

Definition init : State :=
  {| rafHandles := ∅; closures := []; timers := ∅; next_timeout := 0%nat;
     history := [] |}.

(** ** Host timers *)

(** [setTimeout(f, 16)]: a fresh [Timeout] is armed with [f]. *)
Definition setTimeout (f : Task) (s : State) : nat * State :=
  (next_timeout s,
   {| rafHandles := rafHandles s; closures := closures s;
      timers := <[next_timeout s := f]> (timers s);
      next_timeout := S (next_timeout s);
      history := history s |}).

(** [clearTimeout(t)]: [t] is disarmed; nothing happens when it is not armed. *)
Definition clearTimeout (t : nat) (s : State) : State :=
  {| rafHandles := rafHandles s; closures := closures s;
     timers := delete t (timers s);
     next_timeout := next_timeout s;
     history := history s |}.

(** ** The [Map] operations on [rafHandles] *)

Definition rafHandles_set (id : Z) (t : nat) (s : State) : State :=
  {| rafHandles := <[id := t]> (rafHandles s); closures := closures s;
     timers := timers s; next_timeout := next_timeout s;
     history := history s |}.

Definition rafHandles_delete (id : Z) (s : State) : State :=
  {| rafHandles := delete id (rafHandles s); closures := closures s;
     timers := timers s; next_timeout := next_timeout s;
     history := history s |}.

Definition record (o : obs) (s : State) : State :=
  {| rafHandles := rafHandles s; closures := closures s;
     timers := timers s; next_timeout := next_timeout s;
     history := history s ++ [o] |}.

Definition set_rafId (k : nat) (v : Z) (s : State) : State :=
  {| rafHandles := rafHandles s;
     closures := alter (fun c => mkClosure v (c_win c)) k (closures s);
     timers := timers s; next_timeout := next_timeout s;
     history := history s |}.

(** ** patchRAF *)

(** [patchRAF(win)]: a new activation with [rafId = 0]; the result is the
    index of the installation, which names its two arrow functions. *)
Definition patchRAF (win : WindowRef) (s : State) : nat * State :=
  (length (closures s),
   {| rafHandles := rafHandles s;
      closures := closures s ++ [mkClosure 0 win];
      timers := timers s; next_timeout := next_timeout s;
      history := history s |}).

(** [win.requestAnimationFrame = (cb) => { const id = ++rafId; const
    timeoutId = setTimeout(..., 16); rafHandles.set(id, timeoutId);
    return id; }] of installation [k].  [None]: there is no installation
    [k], hence no such function to call. *)
Definition requestAnimationFrame (k : nat) (cb : Callback) (s : State)
  : option (Z * State) :=
  match closures s !! k with
  | None => None
  | Some c =>
      let id := rafId c + 1 in
      let s1 := set_rafId k id s in
      let '(timeoutId, s2) := setTimeout (mkTask id cb (c_win c)) s1 in
      let s3 := rafHandles_set id timeoutId s2 in
      Some (id, record (ORequest k cb id timeoutId) s3)
  end.

(** [win.cancelAnimationFrame = (id) => { const timeoutId =
    rafHandles.get(id); if (timeoutId) { clearTimeout(timeoutId);
    rafHandles.delete(id); } }].  A [Timeout] is an object, so the test
    [if (timeoutId)] succeeds exactly when the key is present. *)
Definition cancelAnimationFrame (k : nat) (id : Z) (s : State)
  : option State :=
  match closures s !! k with
  | None => None
  | Some _ =>
      let s0 := record (OCancel k id) s in
      match rafHandles s0 !! id with
      | Some timeoutId => Some (rafHandles_delete id (clearTimeout timeoutId s0))
      | None => Some s0
      end
  end.

(** The host runs an armed timer: it leaves the queue and its body runs,
    [rafHandles.delete(id)] first, then [cb(now)], where [now] is what
    [win.performance.now()] answers at that moment.  A timer that is not
    armed never runs. *)
Definition fire (t : nat) (now : Z) (s : State) : State :=
  match timers s !! t with
  | None => s
  | Some f =>
      let s1 := clearTimeout t s in
      let s2 := rafHandles_delete (task_id f) s1 in
      record (OInvoke t (task_cb f) now) s2
  end.

(** ** Traces *)

Inductive event :=
| EPatch (win : WindowRef)
| ERequest (k : nat) (cb : Callback)
| ECancel (k : nat) (id : Z)
| EFire (t : Timeout) (now : Z).

Definition step (e : event) (s : State) : option State :=
  match e with
  | EPatch win => Some (snd (patchRAF win s))
  | ERequest k cb => snd <$> requestAnimationFrame k cb s
  | ECancel k id => cancelAnimationFrame k id s
  | EFire t now => Some (fire t now s)
  end.

Fixpoint run (evs : list event) (s : State) : option State :=
  match evs with
  | [] => Some s
  | e :: evs' =>
      match step e s with
      | Some s' => run evs' s'
      | None => None
      end
  end.

(** The steps of a program that uses one installation only. *)
Inductive op :=
| Schedule (cb : Callback)
| Cancel (id : Z)
| TimerFire (t : Timeout) (now : Z).

Definition on (k : nat) (o : op) : event :=
  match o with
  | Schedule cb => ERequest k cb
  | Cancel id => ECancel k id
  | TimerFire t now => EFire t now
  end.

(** One [patchRAF(win)] on the freshly loaded module, then [ops]. *)
Definition single (win : WindowRef) (ops : list op) : list event :=
  EPatch win :: map (on 0%nat) ops.

(** [cbs] scheduled in immediate succession through installation [k]:
    the handles returned, in order. *)
Fixpoint request_many (k : nat) (cbs : list Callback) (s : State)
  : option (list Z * State) :=
  match cbs with
  | [] => Some ([], s)
  | cb :: cbs' =>
      match requestAnimationFrame k cb s with
      | None => None
      | Some (id, s') =>
          match request_many k cbs' s' with
          | None => None
          | Some (ids, s'') => Some (id :: ids, s'')
          end
      end
  end.

(** ** The words of the specification, over a history *)

(** [h] was returned by a schedule call. *)
Definition scheduled (H : list obs) (h : Z) : Prop :=
  ∃ i k cb t, H !! i = Some (ORequest k cb h t).

(** The timer armed for [h] has run (its callback was called). *)
Definition fired (H : list obs) (h : Z) : Prop :=
  ∃ i j k cb t cb' now,
    H !! i = Some (ORequest k cb h t) ∧ H !! j = Some (OInvoke t cb' now).

(** [h] was cancelled after it was issued. *)
Definition cancelled (H : list obs) (h : Z) : Prop :=
  ∃ i j k cb t k',
    H !! i = Some (ORequest k cb h t) ∧ (i < j)%nat ∧
    H !! j = Some (OCancel k' h).

(** A request [(h, t, cb)] of the history that is still pending: its
    timer has not run and no cancel of [h] came after it. *)
Definition live (H : list obs) (h : Z) (t : nat) (cb : nat) : Prop :=
  ∃ i k,
    H !! i = Some (ORequest k cb h t) ∧
    (∀ j cb' now, H !! j ≠ Some (OInvoke t cb' now)) ∧
    (∀ j k', (i < j)%nat → H !! j ≠ Some (OCancel k' h)).

(** What holds of every state that one installation on window [w] reaches. *)
Record Inv (w : nat) (s : State) : Prop := mkInv {
  inv_counter : ∃ n, closures s = [mkClosure n w] ∧ 0 ≤ n ∧
    ∀ i k cb h t, history s !! i = Some (ORequest k cb h t) →
      k = 0%nat ∧ 1 ≤ h ≤ n;
  inv_fresh : ∀ i k cb h t, history s !! i = Some (ORequest k cb h t) →
    (t < next_timeout s)%nat;
  inv_ran : ∀ j t cb now, history s !! j = Some (OInvoke t cb now) →
    (t < next_timeout s)%nat;
  inv_handle : ∀ i j k cb h t k' cb' t',
    history s !! i = Some (ORequest k cb h t) →
    history s !! j = Some (ORequest k' cb' h t') → i = j;
  inv_timer : ∀ i j k cb h t k' cb' h',
    history s !! i = Some (ORequest k cb h t) →
    history s !! j = Some (ORequest k' cb' h' t) → i = j;
  inv_table : ∀ h t, rafHandles s !! h = Some t ↔ ∃ cb, live (history s) h t cb;
  inv_queue : ∀ t f, timers s !! t = Some f ↔
    live (history s) (task_id f) t (task_cb f) ∧ task_win f = w;
  inv_order : ∀ i j m k cb h t k' cb' now,
    history s !! i = Some (ORequest k cb h t) →
    history s !! j = Some (OCancel k' h) → (i < j)%nat →
    history s !! m = Some (OInvoke t cb' now) → (m < j)%nat;
}.

(** The handles installation [k] has returned so far, oldest first. *)
Definition handles_of (k : nat) (H : list obs) : list Z :=
  omap (λ o, match o with
             | ORequest k' _ id _ => if decide (k' = k) then Some id else None
             | _ => None
             end) H.

(** What holds of every state the loaded module reaches, with any number
    of installations. *)
Record Sound (s : State) : Prop := mkSound {
  snd_armed : ∀ t f, timers s !! t = Some f →
    (t < next_timeout s)%nat ∧
    ∃ i k, history s !! i = Some (ORequest k (task_cb f) (task_id f) t);
  snd_request : ∀ i k cb h t, history s !! i = Some (ORequest k cb h t) →
    (t < next_timeout s)%nat;
  snd_request_once : ∀ i j k cb h t k' cb' h',
    history s !! i = Some (ORequest k cb h t) →
    history s !! j = Some (ORequest k' cb' h' t) → i = j;
  snd_invoke : ∀ j t cb now, history s !! j = Some (OInvoke t cb now) →
    timers s !! t = None ∧
    ∃ i k h, (i < j)%nat ∧ history s !! i = Some (ORequest k cb h t);
  snd_invoke_once : ∀ i j t cb now cb' now',
    history s !! i = Some (OInvoke t cb now) →
    history s !! j = Some (OInvoke t cb' now') → i = j;
  snd_handles : ∀ k,
    handles_of k (history s) =
    seqZ 1 (default 0 (rafId <$> closures s !! k));
  snd_counters : Forall (λ c, 0 ≤ rafId c) (closures s);
}.

(** ** The program's own account of one installation *)

(** What a step gives back to the program and to the host: a schedule
    call returns a handle and, during it, the host has handed out a
    timeout (the one a [setTimeout] made in that state returns);
    the other steps return nothing. *)
Inductive answer :=
| Issued (id : Z) (t : nat)
| Done.

Definition answer_of (o : op) (s : State) : answer :=
  match o with
  | Schedule cb =>
      match requestAnimationFrame 0 cb s with
      | Some (id, _) => Issued id (next_timeout s)
      | None => Done
      end
  | _ => Done
  end.

(** The answers of the steps of [ops], run from [s]. *)
Fixpoint answers_from (ops : list op) (s : State) : list answer :=
  match ops with
  | [] => []
  | o :: ops' =>
      answer_of o s ::
      match step (on 0%nat o) s with
      | Some s' => answers_from ops' s'
      | None => []
      end
  end.

Definition answers (win : nat) (ops : list op) : list answer :=
  answers_from ops (snd (patchRAF win init)).

(** The words of the specification, over the steps the program made
    and the answers it got.  Step [p] scheduled a callback and was
    answered handle [h], with timeout [t] handed out. *)
Definition issued (ops : list op) (A : list answer) (h : Z) (p t : nat) : Prop :=
  (∃ cb, ops !! p = Some (Schedule cb)) ∧ A !! p = Some (Issued h t).

(** After step [p], the host let timeout [t] expire. *)
Definition fired_since (ops : list op) (p t : nat) : Prop :=
  ∃ q now, (p < q)%nat ∧ ops !! q = Some (TimerFire t now).

(** After step [p], the program cancelled handle [h]. *)
Definition cancelled_since (ops : list op) (p : nat) (h : Z) : Prop :=
  ∃ q, (p < q)%nat ∧ ops !! q = Some (Cancel h).

(** Handle [h], with timeout [t], was issued and neither fired nor
    cancelled since. *)
Definition pending (ops : list op) (A : list answer) (h : Z) (t : nat) : Prop :=
  ∃ p, issued ops A h p t ∧ ¬ fired_since ops p t ∧ ¬ cancelled_since ops p h.

(** The timer with what the callback does: [behaviour cb now s] is the
    state the call [cb(now)] leaves when it is made in state [s].  The
    host takes the timer off its queue and runs the body,
    [rafHandles.delete(id)] and then [cb(win.performance.now())]. *)
Definition fire_calling (behaviour : nat → Z → State → State)
    (t : nat) (now : Z) (s : State) : State :=
  match timers s !! t with
  | None => s
  | Some f =>
      let s1 := clearTimeout t s in
      let s2 := rafHandles_delete (task_id f) s1 in
      behaviour (task_cb f) now (record (OInvoke t (task_cb f) now) s2)
  end.

End Raf.

(* ===================================================================== *)
(** * mocks/geometry.ts                                                   *)
(* ===================================================================== *)

Module Geometry.
Import JS.

(** What [patchGeometry] touches of a window: the objects of its realm,
    the window object itself, the object [win.HTMLElement.prototype],
    and the number of times the method literal has been evaluated. *)
Record Window := mkWindow {
  heap : gmap nat object;
  window_object : nat;
  HTMLElement_prototype : nat;
  evaluations : nat;
}.

Definition with_heap (w : Window) (h : gmap nat object) : Window :=
  {| heap := h; window_object := window_object w;
     HTMLElement_prototype := HTMLElement_prototype w;
     evaluations := evaluations w |}.

(** The object literal returned by the method, keys in source order. *)
Definition mock_rect : list (string * Z) :=
  [("width", 100); ("height", 50); ("top", 0); ("left", 0);
   ("bottom", 50); ("right", 100); ("x", 0); ("y", 0)].

(** Evaluating [{ value() {...} }] creates a new function object. *)
Definition new_method (w : Window) : value * Window :=
  (VFunction (MockRect (evaluations w)),
   {| heap := heap w; window_object := window_object w;
      HTMLElement_prototype := HTMLElement_prototype w;
      evaluations := S (evaluations w) |}).

(** One [Object.defineProperty] statement: the window after it, and
    whether the statement completed. *)
Definition define (O : nat) (P : string) (Desc : descriptor) (w : Window)
  : completion unit * Window :=
  match defineProperty O P Desc (heap w) with
  | Normal h' => (Normal (), with_heap w h')
  | Throw e => (Throw e, w)
  | Foreign f => (Foreign f, w)
  end.

(** Statements in sequence: the first that does not complete normally
    ends the function. *)
Definition andThen (c : Window → completion unit * Window)
    (k : Window → completion unit * Window) (w : Window)
  : completion unit * Window :=
  match c w with
  | (Normal _, w') => k w'
  | r => r
  end.

(** [patchGeometry(win)]. *)
Definition patchGeometry (w : Window) : completion unit * Window :=
  let '(method, w1) := new_method w in
  andThen
    (define (HTMLElement_prototype w1) "getBoundingClientRect"
       (mkDesc (Some method) None None None None None))
    (andThen
       (define (window_object w1) "innerWidth"
          (mkDesc (Some (VNumber 1280)) (Some true) None None
                  None (Some true)))
       (define (window_object w1) "innerHeight"
          (mkDesc (Some (VNumber 720)) (Some true) None None
                  None (Some true))))
    w1.

(** What a call of a function value answers: the mock returns its
    literal, a function of the host runs host code, anything else is
    not callable. *)
Definition call_rect (f : completion value) : completion (list (string * Z)) :=
  match f with
  | Normal (VFunction (MockRect _)) => Normal mock_rect
  | Normal (VFunction g) => Foreign (VFunction g)
  | Normal _ => Throw (TypeError "getBoundingClientRect is not a function")
  | Throw e => Throw e
  | Foreign g => Foreign g
  end.

(** [e.getBoundingClientRect()]. *)
Definition getBoundingClientRect (w : Window) (e : nat)
  : completion (list (string * Z)) :=
  call_rect (get (heap w) e "getBoundingClientRect").

(** [win.innerWidth] and [win.innerWidth = v], and the same for
    [innerHeight]. *)
Definition read (w : Window) (P : string) : completion value :=
  get (heap w) (window_object w) P.

Definition assign (w : Window) (P : string) (v : value)
  : completion unit * Window :=
  match set (heap w) (window_object w) P v with
  | Normal h' => (Normal (), with_heap w h')
  | Throw e => (Throw e, w)
  | Foreign f => (Foreign f, w)
  end.

(** [e] reaches [target] along its prototype chain before any object
    that has an own property [P]. *)
Definition inherits_through (h : gmap nat object) (e : nat) (P : string)
    (target : nat) : Prop :=
  ∃ o before after,
    h !! e = Some o ∧ e :: protos o = before ++ target :: after ∧
    Forall (λ l, own h l P = None) before.

(** A jsdom window as [new JSDOM(html)] makes it, as far as geometry
    goes: object 0 is the window, with its two size properties; object
    1 is [Element.prototype], where jsdom defines
    [getBoundingClientRect]; object 2 is [HTMLElement.prototype]; object
    3 is [SVGElement.prototype]; 4 is a [div], 5 an [svg] element. *)
Definition jsdom_window : Window :=
  {| heap :=
       {[ 0%nat := mkObject
            {[ "innerWidth" := Data (VNumber 1024) true true true;
               "innerHeight" := Data (VNumber 768) true true true ]}
            true [];
          1%nat := mkObject
            {[ "getBoundingClientRect" :=
                 Data (VFunction (Native "Element.prototype.getBoundingClientRect"))
                      true true true ]}
            true [];
          2%nat := mkObject ∅ true [1%nat];
          3%nat := mkObject ∅ true [1%nat];
          4%nat := mkObject ∅ true [2%nat; 1%nat];
          5%nat := mkObject ∅ true [3%nat; 1%nat] ]};
     window_object := 0;
     HTMLElement_prototype := 2;
     evaluations := 0 |}.

(** The two shapes of descriptor [patchGeometry] passes: [{ value }] and
    [{ value, writable: true, configurable: true }]. *)
Definition method_desc (f : value) : descriptor :=
  mkDesc (Some f) None None None None None.

Definition size_desc (n : Z) : descriptor :=
  mkDesc (Some (VNumber n)) (Some true) None None None (Some true).

(** The same window after a test has put a stub of its own on
    [HTMLElement.prototype] by assignment: a writable, enumerable,
    configurable data property. *)
Definition stubbed_window : Window :=
  with_heap jsdom_window
    (<[2%nat := mkObject
         {[ "getBoundingClientRect" :=
              Data (VFunction (Native "stub")) true true true ]}
         true [1%nat]]> (heap jsdom_window)).

(** What [Object.defineProperty(O, P, ...)] looks at: whether [O] is
    extensible and its own property [P]; nothing when [O] is no object. *)
Definition slot (h : gmap nat object) (O : nat) (P : string)
  : option (bool * option property) :=
  (λ o, (extensible o, props o !! P)) <$> h !! O.

(** Whether the definition of the method is accepted on window [w]:
    the prototype must be extensible when it has no such property; a
    property that is there must be configurable, or a writable data
    property (or hold the very function offered). *)
Definition method_definable (w : Window) : bool :=
  match slot (heap w) (HTMLElement_prototype w) "getBoundingClientRect" with
  | None => false
  | Some (ext, None) => ext
  | Some (_, Some (Data v wr _ cf)) =>
      cf || wr || bool_decide (v = VFunction (MockRect (evaluations w)))
  | Some (_, Some (Accessor _ _ _ cf)) => cf
  end.

(** Whether the definition of a viewport size is accepted: the window
    must be extensible when it has no such property, and a property
    that is there must be configurable. *)
Definition size_definable (w : Window) (P : string) : bool :=
  match slot (heap w) (window_object w) P with
  | None => false
  | Some (ext, None) => ext
  | Some (_, Some pr) => prop_configurable pr
  end.

(** Whether the method can be defined once more after a first
    [patchGeometry]: only a property that was there before, and was
    configurable or a writable data property, takes a new function. *)
Definition repeatable (w : Window) : bool :=
  match own (heap w) (HTMLElement_prototype w) "getBoundingClientRect" with
  | None => false
  | Some (Data _ wr _ cf) => cf || wr
  | Some (Accessor _ _ _ cf) => cf
  end.

(** The three properties [patchGeometry] defines. *)
Definition patched (w : Window) (l : nat) (Q : string) : Prop :=
  (l = HTMLElement_prototype w ∧ Q = "getBoundingClientRect") ∨
  (l = window_object w ∧ Q = "innerWidth") ∨
  (l = window_object w ∧ Q = "innerHeight").

(** [w'] is [w] but for the properties of [patched]. *)
Definition same_but_patched (w w' : Window) : Prop :=
  window_object w' = window_object w ∧
  HTMLElement_prototype w' = HTMLElement_prototype w ∧
  (∀ l, extensible <$> heap w' !! l = extensible <$> heap w !! l) ∧
  (∀ l, protos <$> heap w' !! l = protos <$> heap w !! l) ∧
  (∀ l Q, ¬ patched w l Q → own (heap w') l Q = own (heap w) l Q).

End Geometry.

(* ===================================================================== *)
(** * mocks/location.ts                                                   *)
(* ===================================================================== *)

Module Location.
Import JS.

(** The fields of [win.location] the package reads. *)
Record Location := mkLocation {
  href : string;
  origin : string;
  protocol : string;
  host : string;
  hostname : string;
  port : string;
  pathname : string;
  search : string;
  hash : string;
}.

(** [location] is the live object of the host, [console] what
    [console.warn] has printed, [objects] the plain objects created so
    far, each with its properties in creation order; an object is named
    by its position. *)
Record State := mkState {
  location : Location;
  console : list string;
  objects : list (list (string * string));
}.

Definition quote : string := String (Ascii.ascii_of_nat 34) EmptyString.

(** The three literals the source concatenates. *)
Definition warning : string :=
  "[jsdom-extended] window.location is about:blank. " +:+
  "For full location support, create JSDOM with a URL: " +:+
  ("new JSDOM(html, { url: " +:+ quote +:+ "http://localhost/" +:+ quote
   +:+ " })").

(** What [patchLocation] prints for a location. *)
Definition warnings (l : Location) : list string :=
  if bool_decide (href l = "about:blank") then [warning] else [].

(** [patchLocation(win)]. *)
Definition patchLocation (s : State) : completion unit * State :=
  (Normal (),
   {| location := location s; console := console s ++ warnings (location s);
      objects := objects s |}).

(** [hasValidLocation(win)]. *)
Definition hasValidLocation (s : State) : bool :=
  negb (bool_decide (href (location s) = "about:blank")).

(** [getLocationInfo(win)]: the nine fields are read, then a new object
    is made of them; the result names that object. *)
Definition snapshot (l : Location) : list (string * string) :=
  [("href", href l); ("origin", origin l); ("protocol", protocol l);
   ("host", host l); ("hostname", hostname l); ("port", port l);
   ("pathname", pathname l); ("search", search l); ("hash", hash l)].

Definition getLocationInfo (s : State) : nat * State :=
  (length (objects s),
   {| location := location s; console := console s;
      objects := objects s ++ [snapshot (location s)] |}).

(** [navigateTo(win, url)]: [win.location.href = url].  The setter is
    the host's: [assign_href url l] is what it makes of the location, or
    how it fails. *)
Definition navigateTo (assign_href : string → Location → completion Location)
    (url : string) (s : State) : completion unit * State :=
  match assign_href url (location s) with
  | Normal l' =>
      (Normal (),
       {| location := l'; console := console s; objects := objects s |})
  | Throw e => (Throw e, s)
  | Foreign f => (Foreign f, s)
  end.

(** What a program may do to the location of a window once a snapshot
    has been taken. *)
Inductive action :=
| Navigate (url : string)
| Replace (l : Location)      (* the host changes the location itself *)
| Validate
| Snapshot.

Definition act (assign_href : string → Location → completion Location)
    (a : action) (s : State) : State :=
  match a with
  | Navigate url => snd (navigateTo assign_href url s)
  | Replace l =>
      {| location := l; console := console s; objects := objects s |}
  | Validate => snd (patchLocation s)
  | Snapshot => snd (getLocationInfo s)
  end.

Definition acts (assign_href : string → Location → completion Location)
    (l : list action) (s : State) : State :=
  foldl (λ s a, act assign_href a s) s l.

(** A window made by [new JSDOM(html)], without a URL. *)
Definition about_blank : Location :=
  {| href := "about:blank"; origin := "null"; protocol := "about:";
     host := EmptyString; hostname := EmptyString; port := EmptyString;
     pathname := "blank"; search := EmptyString; hash := EmptyString |}.

(** A window made by [new JSDOM(html, { url: 'http://localhost:3000/' })]. *)
Definition localhost : Location :=
  {| href := "http://localhost:3000/"; origin := "http://localhost:3000";
     protocol := "http:"; host := "localhost:3000"; hostname := "localhost";
     port := "3000"; pathname := "/"; search := EmptyString;
     hash := EmptyString |}.

End Location.

(* ===================================================================== *)
(** * mocks/resize-observer.ts                                            *)
(* ===================================================================== *)

Module ResizeObserver.

(** An instance of the class: which instance it is, and its private
    field [cb], written once by the constructor.  Callbacks and elements
    are opaque and named by numbers. *)
Record FakeResizeObserver := mkObserver { instance : nat; cb : nat }.

Record Entry := mkEntry { target : nat; contentRect : list (string * Z) }.

(** One call [callee(entries, observer)]. *)
Record Call := mkCall {
  callee : nat;
  entries : list Entry;
  observer : FakeResizeObserver;
}.

(** [constructed] counts the instances made so far; [calls] lists the
    calls of callbacks made so far, oldest first; [queued] lists the
    calls handed to the host to be made later (timers, microtasks). *)
Record State := mkState {
  constructed : nat;
  calls : list Call;
  queued : list Call;
}.

(** [new FakeResizeObserver(cb)]. *)
Definition construct (cb : nat) (s : State) : FakeResizeObserver * State :=
  (mkObserver (constructed s) cb,
   {| constructed := S (constructed s); calls := calls s;
      queued := queued s |}).

(** [observe(el)]: [this.cb([{ target: el, contentRect: { width: 100,
    height: 100 } }], this)], a plain call in the body of [observe]. *)
Definition observe (this : FakeResizeObserver) (el : nat) (s : State) : State :=
  {| constructed := constructed s;
     calls := calls s ++
       [mkCall (cb this)
          [mkEntry el [("width", 100); ("height", 100)]]
          this];
     queued := queued s |}.

(** [disconnect() {}] and [unobserve() {}]. *)
Definition disconnect (this : FakeResizeObserver) (s : State) : State := s.

Definition unobserve (this : FakeResizeObserver) (s : State) : State := s.

Inductive method :=
| Observe (this : FakeResizeObserver) (el : nat)
| Disconnect (this : FakeResizeObserver)
| Unobserve (this : FakeResizeObserver).

Definition invoke (m : method) (s : State) : State :=
  match m with
  | Observe this el => observe this el s
  | Disconnect this => disconnect this s
  | Unobserve this => unobserve this s
  end.

Definition invoke_all (ms : list method) (s : State) : State :=
  foldl (λ s m, invoke m s) s ms.

(** The call an [observe] is expected to make, none for the others. *)
Definition expected (m : method) : option Call :=
  match m with
  | Observe this el =>
      Some (mkCall (cb this) [mkEntry el [("width", 100); ("height", 100)]] this)
  | _ => None
  end.

End ResizeObserver.

(* ===================================================================== *)
(** * setup.ts                                                            *)
(* ===================================================================== *)

Module Setup.
Import JS.

(** One process: the windows it has made, each with its objects and its
    location; the state of the loaded module raf.ts and of the host's
    timers; the console. *)
Record World := mkWorld {
  windows : gmap nat Geometry.Window;
  locations : gmap nat Location.Location;
  raf : Raf.State;
  console : list string;
}.

Definition Patch := World → completion unit * World.

Definition andThen (c k : Patch) : Patch :=
  λ W, match c W with
       | (Normal _, W') => k W'
       | r => r
       end.

(** A patch of the objects of window [win]; a reference that names no
    window behaves as [undefined]. *)
Definition on_window (win : nat)
    (f : Geometry.Window → completion unit * Geometry.Window) : Patch :=
  λ W, match windows W !! win with
       | None => (Throw (TypeError "Cannot read properties of undefined"), W)
       | Some w =>
           let '(r, w') := f w in
           (r, {| windows := <[win := w']> (windows W);
                  locations := locations W; raf := raf W;
                  console := console W |})
       end.

Definition patchGeometry (win : nat) : Patch :=
  on_window win Geometry.patchGeometry.

(** [patchRAF(win)]: the activation record is made, then the two arrow
    functions are stored in [win]. *)
Definition patchRAF (win : nat) : Patch :=
  λ W, let '(k, r') := Raf.patchRAF win (raf W) in
       let W' := {| windows := windows W; locations := locations W;
                    raf := r'; console := console W |} in
       andThen
         (on_window win (λ w, Geometry.assign w "requestAnimationFrame"
                                (VFunction (RafRequest k))))
         (on_window win (λ w, Geometry.assign w "cancelAnimationFrame"
                                (VFunction (RafCancel k))))
         W'.

(** [patchResizeObserver(win)]: [win.ResizeObserver = FakeResizeObserver]. *)
Definition patchResizeObserver (win : nat) : Patch :=
  on_window win (λ w, Geometry.assign w "ResizeObserver"
                        (VFunction FakeResizeObserverClass)).

Definition patchLocation (win : nat) : Patch :=
  λ W, match locations W !! win with
       | None => (Throw (TypeError "Cannot read properties of undefined"), W)
       | Some l =>
           (Normal (),
            {| windows := windows W; locations := locations W; raf := raf W;
               console := console W ++ Location.warnings l |})
       end.

(** [applyJsdomExtended(window)].  setup.ts holds this function twice,
    with and without the last call. *)
Definition applyJsdomExtended (win : nat) : Patch :=
  andThen (patchGeometry win)
    (andThen (patchRAF win)
       (andThen (patchResizeObserver win) (patchLocation win))).

Definition applyJsdomExtended_without_location (win : nat) : Patch :=
  andThen (patchGeometry win)
    (andThen (patchRAF win) (patchResizeObserver win)).

(** A process that has made two jsdom windows, 1 with a URL and 2
    without, and has just loaded the package. *)
Definition two_windows : World :=
  {| windows := {[ 1%nat := Geometry.jsdom_window;
                   2%nat := Geometry.jsdom_window ]};
     locations := {[ 1%nat := Location.localhost;
                     2%nat := Location.about_blank ]};
     raf := Raf.init;
     console := [] |}.

End Setup.

(* ===================================================================== *)
(** * Properties of the animation-frame shim                              *)
(* ===================================================================== *)

Module RafFacts.
Import Raf.

Lemma run_app evs1 evs2 s :
  run (evs1 ++ evs2) s = run evs1 s ≫= run evs2.
Proof.
  revert s. induction evs1 as [|e evs1 IH]; intros s; simpl; [done|].
  destruct (step e s); simpl; [apply IH | done].
Qed.

Lemma run_snoc evs e s :
  run (evs ++ [e]) s = run evs s ≫= step e.
Proof.
  rewrite run_app. destruct (run evs s) as [s'|]; simpl; [|done].
  by destruct (step e s').
Qed.

Lemma single_snoc w ops o : single w (ops ++ [o]) = single w ops ++ [on 0%nat o].
Proof. unfold single. by rewrite map_app. Qed.

(** A request of the history extended by [x] is live when it was before
    and [x] does not end it, or when it is [x] itself. *)
Lemma live_snoc_request H k cb h t h' t' cb' :
  (∀ j c now, H !! j ≠ Some (OInvoke t c now)) →
  live (H ++ [ORequest k cb h t]) h' t' cb' ↔
  live H h' t' cb' ∨ (h' = h ∧ t' = t ∧ cb' = cb).
Proof.
  intros Hno. split.
  - intros (i & k0 & Hi & Hinv & Hcan).
    apply lookup_snoc_Some in Hi as [[Hlt Hi]|[-> Heq]].
    + left. exists i, k0. split_and!; [done| |].
      * intros j c now Hj. apply (Hinv j c now).
        apply lookup_snoc_Some. left. split; [by eapply lookup_lt_Some|done].
      * intros j k1 Hij Hj. apply (Hcan j k1 Hij).
        apply lookup_snoc_Some. left. split; [by eapply lookup_lt_Some|done].
    + right. by inversion Heq.
  - intros [(i & k0 & Hi & Hinv & Hcan)|(-> & -> & ->)].
    + exists i, k0. split_and!.
      * apply lookup_snoc_Some. left. split; [by eapply lookup_lt_Some|done].
      * intros j c now Hj.
        apply lookup_snoc_Some in Hj as [[_ Hj]|[_ Hj]]; [by eapply Hinv|done].
      * intros j k1 Hij Hj.
        apply lookup_snoc_Some in Hj as [[_ Hj]|[_ Hj]]; [by eapply Hcan|done].
    + exists (length H), k. split_and!.
      * apply lookup_snoc_Some. by right.
      * intros j c now Hj.
        apply lookup_snoc_Some in Hj as [[_ Hj]|[_ Hj]]; [by eapply Hno|done].
      * intros j k1 Hij Hj.
        apply lookup_snoc_Some in Hj as [[Hlt _]|[-> _]]; lia.
Qed.

Lemma live_snoc_invoke H t cb now h' t' cb' :
  live (H ++ [OInvoke t cb now]) h' t' cb' ↔ live H h' t' cb' ∧ t' ≠ t.
Proof.
  split.
  - intros (i & k0 & Hi & Hinv & Hcan).
    apply lookup_snoc_Some in Hi as [[Hlt Hi]|[_ Heq]]; [|done].
    split.
    + exists i, k0. split_and!; [done| |].
      * intros j c n Hj. apply (Hinv j c n).
        apply lookup_snoc_Some. left. split; [by eapply lookup_lt_Some|done].
      * intros j k1 Hij Hj. apply (Hcan j k1 Hij).
        apply lookup_snoc_Some. left. split; [by eapply lookup_lt_Some|done].
    + intros ->. apply (Hinv (length H) cb now).
      apply lookup_snoc_Some. by right.
  - intros [(i & k0 & Hi & Hinv & Hcan) Hne].
    exists i, k0. split_and!.
    + apply lookup_snoc_Some. left. split; [by eapply lookup_lt_Some|done].
    + intros j c n Hj.
      apply lookup_snoc_Some in Hj as [[_ Hj]|[_ Hj]]; [by eapply Hinv|].
      congruence.
    + intros j k1 Hij Hj.
      apply lookup_snoc_Some in Hj as [[_ Hj]|[_ Hj]]; [by eapply Hcan|done].
Qed.

Lemma live_snoc_cancel H k h h' t' cb' :
  live (H ++ [OCancel k h]) h' t' cb' ↔ live H h' t' cb' ∧ h' ≠ h.
Proof.
  split.
  - intros (i & k0 & Hi & Hinv & Hcan).
    apply lookup_snoc_Some in Hi as [[Hlt Hi]|[_ Heq]]; [|done].
    split.
    + exists i, k0. split_and!; [done| |].
      * intros j c n Hj. apply (Hinv j c n).
        apply lookup_snoc_Some. left. split; [by eapply lookup_lt_Some|done].
      * intros j k1 Hij Hj. apply (Hcan j k1 Hij).
        apply lookup_snoc_Some. left. split; [by eapply lookup_lt_Some|done].
    + intros ->. apply (Hcan (length H) k Hlt).
      apply lookup_snoc_Some. by right.
  - intros [(i & k0 & Hi & Hinv & Hcan) Hne].
    exists i, k0. split_and!.
    + apply lookup_snoc_Some. left. split; [by eapply lookup_lt_Some|done].
    + intros j c n Hj.
      apply lookup_snoc_Some in Hj as [[_ Hj]|[_ Hj]]; [by eapply Hinv|done].
    + intros j k1 Hij Hj.
      apply lookup_snoc_Some in Hj as [[_ Hj]|[_ Hj]]; [by eapply Hcan|].
      congruence.
Qed.

Ltac snoc_cases H :=
  apply lookup_snoc_Some in H as [[? H]|[? H]]; simplify_eq.

Lemma Inv_patch w : Inv w (snd (patchRAF w init)).
Proof.
  split; simpl.
  - exists 0. split_and!; [done|lia|]. intros i ????; by rewrite lookup_nil.
  - intros i ????; by rewrite lookup_nil.
  - intros i ???; by rewrite lookup_nil.
  - intros i j ???????; by rewrite lookup_nil.
  - intros i j ???????; by rewrite lookup_nil.
  - intros h t. rewrite lookup_empty. split; [done|].
    intros (cb & i & k & Hi & _). by rewrite lookup_nil in Hi.
  - intros t f. rewrite lookup_empty. split; [done|].
    intros [(i & k & Hi & _) _]. by rewrite lookup_nil in Hi.
  - intros i j m ???????; by rewrite lookup_nil.
Qed.

Lemma Inv_request w cb s :
  Inv w s →
  ∃ id s', requestAnimationFrame 0 cb s = Some (id, s') ∧ Inv w s' ∧
    0 < id ∧
    history s' = history s ++ [ORequest 0 cb id (next_timeout s)].
Proof.
  intros [(n & Hcl & Hn & Hreq) Hfresh Hran Hh Ht Htab Hq Hord].
  unfold requestAnimationFrame. rewrite Hcl. simpl.
  eexists _, _. split; [reflexivity|].
  assert (Hnoinv : ∀ j c now,
            history s !! j ≠ Some (OInvoke (next_timeout s) c now)).
  { intros j c now Hj. apply Hran in Hj. lia. }
  split_and!; [split; simpl| lia | done].
  - rewrite Hcl. simpl. exists (n + 1). split_and!; [done|lia|].
    intros i k c h t Hi. snoc_cases Hi; [|split; [done|lia]].
    destruct (Hreq _ _ _ _ _ Hi). split; [done|lia].
  - intros i k c h t Hi. snoc_cases Hi; [|lia].
    apply Hfresh in Hi. lia.
  - intros j t c now Hj. snoc_cases Hj. apply Hran in Hj. lia.
  - intros i j k c h t k' c' t' Hi Hj. snoc_cases Hi; snoc_cases Hj.
    + by eapply Hh.
    + destruct (Hreq _ _ _ _ _ Hi). lia.
    + destruct (Hreq _ _ _ _ _ Hj). lia.
    + done.
  - intros i j k c h t k' c' h' Hi Hj. snoc_cases Hi; snoc_cases Hj.
    + by eapply Ht.
    + apply Hfresh in Hi. lia.
    + apply Hfresh in Hj. lia.
    + done.
  - intros h t. rewrite lookup_insert_Some. split.
    + intros [[<- <-]|[Hne Hl]].
      * exists cb. rewrite live_snoc_request by done. by right.
      * apply Htab in Hl as [c Hl]. exists c.
        rewrite live_snoc_request by done. by left.
    + intros [c Hl]. rewrite live_snoc_request in Hl by done.
      destruct Hl as [Hl|(-> & -> & ->)]; [|by left].
      right. split; [|apply Htab; by exists c].
      destruct Hl as (i & k & Hi & _). destruct (Hreq _ _ _ _ _ Hi). lia.
  - intros t f. rewrite lookup_insert_Some. split.
    + intros [[<- <-]|[Hne Hl]]; simpl.
      * split; [|done]. rewrite live_snoc_request by done. by right.
      * apply Hq in Hl as [Hl Hw]. split; [|done].
        rewrite live_snoc_request by done. by left.
    + intros [Hl Hw]. rewrite live_snoc_request in Hl by done.
      destruct Hl as [Hl|(Hid & -> & Hcb)].
      * right. split; [|apply Hq; by split].
        destruct Hl as (i & k & Hi & _). apply Hfresh in Hi. lia.
      * left. split; [done|]. destruct f; simpl in *. by subst.
  - intros i j m k c h t k' c' now Hi Hj Hij Hm.
    snoc_cases Hj. snoc_cases Hm. snoc_cases Hi; [by eapply Hord|lia].
Qed.

Lemma Inv_cancel w id s :
  Inv w s →
  ∃ s', cancelAnimationFrame 0 id s = Some s' ∧ Inv w s' ∧
    history s' = history s ++ [OCancel 0 id].
Proof.
  intros [(n & Hcl & Hn & Hreq) Hfresh Hran Hh Ht Htab Hq Hord].
  unfold cancelAnimationFrame. rewrite Hcl. simpl.
  assert (Hcommon : ∀ s', closures s' = closures s →
            next_timeout s' = next_timeout s →
            history s' = history s ++ [OCancel 0 id] →
            (∀ h t, rafHandles s' !! h = Some t ↔
                    rafHandles s !! h = Some t ∧ h ≠ id) →
            (∀ t f, timers s' !! t = Some f ↔
                    timers s !! t = Some f ∧ task_id f ≠ id) →
            Inv w s').
  { intros s' Hc' Hn' HH' Htab' Hq'. split; rewrite ?Hc', ?Hn', ?HH'.
    - exists n. split_and!; [done|done|].
      intros i k c h t Hi. snoc_cases Hi. by eapply Hreq.
    - intros i k c h t Hi. snoc_cases Hi. by eapply Hfresh.
    - intros j t c now Hj. snoc_cases Hj. by eapply Hran.
    - intros i j k c h t k' c' t' Hi Hj. snoc_cases Hi; snoc_cases Hj.
      by eapply Hh.
    - intros i j k c h t k' c' h' Hi Hj. snoc_cases Hi; snoc_cases Hj.
      by eapply Ht.
    - intros h t. rewrite Htab', Htab. split.
      + intros [[c Hl] Hne]. exists c. by apply live_snoc_cancel.
      + intros [c Hl]. apply live_snoc_cancel in Hl as [Hl Hne].
        split; [by exists c|done].
    - intros t f. rewrite Hq', Hq. rewrite live_snoc_cancel. tauto.
    - intros i j m k c h t k' c' now Hi Hj Hij Hm.
      snoc_cases Hi. snoc_cases Hm. snoc_cases Hj; [by eapply Hord|].
      by eapply lookup_lt_Some. }
  destruct (rafHandles s !! id) as [timeoutId|] eqn:Hid.
  - eexists. split_and!; [reflexivity| |done].
    apply Hcommon; simpl; try done.
    + intros h t. rewrite lookup_delete_Some. split; intros [??]; split; done.
    + intros t f. rewrite lookup_delete_Some. split.
      * intros [Hne Hf]. split; [done|]. intros Heq.
        apply Hq in Hf as [Hl _]. rewrite Heq in Hl.
        assert (rafHandles s !! id = Some t) as Hid'
          by (apply Htab; eauto).
        congruence.
      * intros [Hf Hne]. split; [|done]. intros <-.
        apply Htab in Hid as [c (i & k & Hi & _)].
        apply Hq in Hf as [(i' & k' & Hi' & _) _].
        assert (i = i') by (by eapply Ht). simplify_eq.
  - eexists. split_and!; [reflexivity| |done].
    apply Hcommon; simpl; try done.
    + intros h t. split; [|tauto]. intros Hl. split; [done|congruence].
    + intros t f. split; [|tauto]. intros Hf. split; [done|].
      intros Heq. apply Hq in Hf as [Hl _]. rewrite Heq in Hl.
      assert (rafHandles s !! id = Some t) as Hid' by (apply Htab; eauto).
      congruence.
Qed.

Lemma Inv_fire w t now s : Inv w s → Inv w (fire t now s).
Proof.
  intros HI. unfold fire. destruct (timers s !! t) as [f|] eqn:Hf; [|done].
  destruct HI as [(n & Hcl & Hn & Hreq) Hfresh Hran Hh Ht Htab Hq Hord].
  pose proof (proj1 (Hq _ _) Hf) as [Hlive Hwin].
  destruct Hlive as (i0 & k0 & Hi0 & Hnoinv0 & Hnocan0).
  split; simpl.
  - exists n. split_and!; [done|done|].
    intros i k c h t' Hi. snoc_cases Hi. by eapply Hreq.
  - intros i k c h t' Hi. snoc_cases Hi. by eapply Hfresh.
  - intros j t' c now' Hj. snoc_cases Hj; [by eapply Hran|by eapply Hfresh].
  - intros i j k c h t1 k' c' t' Hi Hj. snoc_cases Hi; snoc_cases Hj.
    by eapply Hh.
  - intros i j k c h t1 k' c' h' Hi Hj. snoc_cases Hi; snoc_cases Hj.
    by eapply Ht.
  - intros h t'. rewrite lookup_delete_Some. split.
    + intros [Hne Hl]. apply Htab in Hl as [c Hl]. exists c.
      apply live_snoc_invoke. split; [done|]. intros ->.
      destruct Hl as (i & k & Hi & _).
      assert (i = i0) by (by eapply Ht). simplify_eq.
    + intros [c Hl]. apply live_snoc_invoke in Hl as [Hl Hne].
      split; [|apply Htab; by exists c]. intros <-.
      destruct Hl as (i & k & Hi & _).
      assert (i = i0) by (by eapply Hh). simplify_eq.
  - intros t' f'. rewrite lookup_delete_Some, Hq, live_snoc_invoke.
    split; [intros (?&?&?)|intros ((?&?)&?)]; split_and!; done.
  - intros i j m k c h t1 k' c' now' Hi Hj Hij Hm.
    snoc_cases Hi. snoc_cases Hj. snoc_cases Hm; [by eapply Hord|].
    assert (i = i0) by (by eapply Ht). simplify_eq.
    by destruct (Hnocan0 j k' Hij).
Qed.

Lemma Inv_on w o s :
  Inv w s → ∃ s', step (on 0%nat o) s = Some s' ∧ Inv w s'.
Proof.
  intros HI. destruct o as [cb|id|t now]; simpl.
  - destruct (Inv_request w cb s HI) as (id & s' & -> & HI' & _).
    by exists s'.
  - destruct (Inv_cancel w id s HI) as (s' & -> & HI' & _). by exists s'.
  - eexists. split; [done|]. by apply Inv_fire.
Qed.

(** One installation: every trace runs, and ends in a state of [Inv]. *)
Lemma Inv_single w ops : ∃ s, run (single w ops) init = Some s ∧ Inv w s.
Proof.
  induction ops as [|o ops IH] using rev_ind.
  - eexists. split; [reflexivity|]. apply Inv_patch.
  - destruct IH as (s & Hrun & HI).
    destruct (Inv_on w o s HI) as (s' & Hstep & HI').
    exists s'. split; [|done].
    rewrite single_snoc, run_snoc, Hrun. simpl. done.
Qed.

Lemma Inv_pending w s h :
  Inv w s →
  h ∈ dom (rafHandles s) ↔
  scheduled (history s) h ∧ ¬ fired (history s) h ∧ ¬ cancelled (history s) h.
Proof.
  intros HI. rewrite elem_of_dom. unfold is_Some.
  setoid_rewrite (inv_table _ _ HI). split.
  - intros (t & cb & i & k & Hi & Hnoinv & Hnocan). split_and!.
    + by exists i, k, cb, t.
    + intros (i' & j & k' & c & t' & c' & now & Hi' & Hj).
      assert (i = i') by (by eapply (inv_handle _ _ HI)). simplify_eq.
      by eapply Hnoinv.
    + intros (i' & j & k' & c & t' & k'' & Hi' & Hij & Hj).
      assert (i = i') by (by eapply (inv_handle _ _ HI)). simplify_eq.
      by eapply Hnocan.
  - intros ((i & k & cb & t & Hi) & Hnf & Hnc).
    exists t, cb, i, k. split_and!; [done| |].
    + intros j c now Hj. apply Hnf. by exists i, j, k, cb, t, c, now.
    + intros j k' Hij Hj. apply Hnc. by exists i, j, k, cb, t, k'.
Qed.

(** Counters never go below their seed. *)
Lemma step_counters e s s' :
  step e s = Some s' →
  Forall (λ c, 0 ≤ rafId c) (closures s) →
  Forall (λ c, 0 ≤ rafId c) (closures s').
Proof.
  destruct e as [win|k cb|k id|t now]; simpl.
  - intros [= <-] HF. simpl. apply Forall_app. split; [done|].
    by repeat constructor.
  - unfold requestAnimationFrame.
    destruct (closures s !! k) as [c|] eqn:Hk; [|done]. simpl.
    intros [= <-] HF. simpl.
    apply Forall_lookup. intros i c' Hi.
    destruct (decide (k = i)) as [->|Hne].
    + rewrite list_lookup_alter_eq, Hk in Hi. simpl in Hi.
      injection Hi as <-. simpl.
      pose proof (Forall_lookup_1 _ _ _ _ HF Hk) as Hc. simpl in Hc. lia.
    + rewrite list_lookup_alter_ne in Hi by done.
      by eapply (Forall_lookup_1 _ _ _ _ HF).
  - unfold cancelAnimationFrame.
    destruct (closures s !! k); [|done]. simpl.
    destruct (rafHandles s !! id); by intros [= <-].
  - intros [= <-]. unfold fire. by destruct (timers s !! t).
Qed.

Lemma run_counters evs s s' :
  run evs s = Some s' →
  Forall (λ c, 0 ≤ rafId c) (closures s) →
  Forall (λ c, 0 ≤ rafId c) (closures s').
Proof.
  revert s. induction evs as [|e evs IH]; intros s; simpl.
  - by intros [= <-].
  - destruct (step e s) as [s1|] eqn:Hs; [|done].
    intros Hrun HF. eapply IH; [done|]. by eapply step_counters.
Qed.

(** [n] schedule calls in a row hand out the next [n] counter values. *)
Lemma request_many_seq k cbs s c :
  closures s !! k = Some c →
  ∃ s', request_many k cbs s =
          Some (seqZ (rafId c + 1) (Z.of_nat (length cbs)), s').
Proof.
  revert s c. induction cbs as [|cb cbs IH]; intros s c Hk; simpl.
  - by eexists.
  - unfold requestAnimationFrame. rewrite Hk. simpl.
    edestruct (IH (record (ORequest k cb (rafId c + 1) (next_timeout s))
                 (rafHandles_set (rafId c + 1) (next_timeout s)
                   (snd (setTimeout (mkTask (rafId c + 1) cb (c_win c))
                     (set_rafId k (rafId c + 1) s)))))
                 (mkClosure (rafId c + 1) (c_win c))) as [s' Hs'].
    { simpl. by rewrite list_lookup_alter_eq, Hk. }
    simpl in Hs'. rewrite Hs'. exists s'. f_equal. f_equal.
    rewrite (seqZ_cons (rafId c + 1)) by lia.
    f_equal. f_equal; lia.
Qed.

Example three_frames :
  fst <$> request_many 0 [4; 5; 6]%nat (snd (patchRAF 9 init)) = Some [1; 2; 3].
Proof. reflexivity. Qed.

Example cancelled_frame_does_not_run :
  history <$> run (single 9 [Schedule 4; Schedule 5; Cancel 1;
                             TimerFire 0 16; TimerFire 1 17]) init
  = Some [ORequest 0 4 1 0; ORequest 0 5 2 1; OCancel 0 1; OInvoke 1 5 17]%nat.
Proof. reflexivity. Qed.

(** For one installation, the handle table against the history: a
    handle is a key of the table if and only if the history holds its
    request and neither a call of its timer nor a later cancel. *)
Lemma table_against_history (w : nat) (ops : list op) :
  ∃ s, run (single w ops) init = Some s ∧
    ∀ h, h ∈ dom (rafHandles s) ↔
         scheduled (history s) h ∧ ¬ fired (history s) h ∧
         ¬ cancelled (history s) h.
Proof.
  destruct (Inv_single w ops) as (s & Hrun & HI).
  exists s. split; [done|]. intros h. by apply (Inv_pending w).
Qed.

(** For one installation only: a handle that is cancelled before its
    timer has run never has its callback invoked, whatever follows; and
    cancelling a handle that was never issued (any integer, negative
    ones included), or whose callback already ran, or that was already
    cancelled, returns normally and leaves the handle table, the armed
    timers and the counter as they were. *)
Lemma cancel_in_one_installation (w : nat) (ops : list op) :
  ∃ s, run (single w ops) init = Some s ∧
    (∀ i j k cb h t k',
       history s !! i = Some (ORequest k cb h t) →
       history s !! j = Some (OCancel k' h) → (i < j)%nat →
       (∀ m cb' now, (m < j)%nat →
          history s !! m ≠ Some (OInvoke t cb' now)) →
       ∀ m cb' now, history s !! m ≠ Some (OInvoke t cb' now)) ∧
    (∀ h, ¬ scheduled (history s) h ∨ fired (history s) h ∨
          cancelled (history s) h →
       ∃ s', cancelAnimationFrame 0 h s = Some s' ∧
         rafHandles s' = rafHandles s ∧ timers s' = timers s ∧
         closures s' = closures s ∧ next_timeout s' = next_timeout s ∧
         history s' = history s ++ [OCancel 0%nat h]).
Proof.
  destruct (Inv_single w ops) as (s & Hrun & HI).
  exists s. split_and!; [done| |].
  - intros i j k cb h t k' Hi Hj Hij Hbefore m cb' now Hm.
    apply (Hbefore m cb' now); [|done].
    by eapply (inv_order _ _ HI).
  - intros h Hdead.
    assert (rafHandles s !! h = None) as Hnone.
    { apply not_elem_of_dom. rewrite (Inv_pending w s h HI). tauto. }
    destruct (inv_counter _ _ HI) as (n & Hcl & _).
    unfold cancelAnimationFrame. rewrite Hcl. simpl. rewrite Hnone.
    eexists. split; [reflexivity|]. simpl. by rewrite Hcl.
Qed.

(** C6. On any reachable state and any installation [k] of it,
    scheduling the callbacks [cbs] in immediate succession returns as
    many handles as callbacks; they are all positive, pairwise distinct
    and strictly increasing in the order of issue. *)
Theorem successive_handles (evs : list event) (s : State) (k : nat)
    (cbs : list nat) :
  run evs init = Some s → (k < length (closures s))%nat →
  ∃ ids s', request_many k cbs s = Some (ids, s') ∧
    length ids = length cbs ∧
    Forall (λ h, 0 < h) ids ∧
    NoDup ids ∧
    ∀ i j a b, ids !! i = Some a → ids !! j = Some b → (i < j)%nat → a < b.
Proof.
  intros Hrun Hk.
  apply lookup_lt_is_Some_2 in Hk as [c Hc].
  assert (0 ≤ rafId c) as Hpos.
  { eapply run_counters in Hrun; [|by constructor].
    by apply (Forall_lookup_1 _ _ _ _ Hrun Hc). }
  destruct (request_many_seq k cbs s c Hc) as [s' Hs'].
  eexists _, s'. split_and!; [done| | | |].
  - rewrite length_seqZ. lia.
  - apply Forall_seqZ. intros x Hx. lia.
  - apply NoDup_seqZ.
  - intros i j a b Hi Hj Hij.
    apply lookup_seqZ in Hi as [-> _]. apply lookup_seqZ in Hj as [-> _]. lia.
Qed.

(** The theorem above on a fresh installation and three callbacks. *)
Lemma successive_handles_witness :
  ∃ ids s', request_many 0 [4; 5; 6]%nat (snd (patchRAF 9 init)) = Some (ids, s') ∧
    length ids = 3%nat ∧
    Forall (λ h, 0 < h) ids ∧
    NoDup ids ∧
    ∀ i j a b, ids !! i = Some a → ids !! j = Some b → (i < j)%nat → a < b.
Proof.
  apply (successive_handles [EPatch 9] (snd (patchRAF 9 init)) 0 [4; 5; 6]%nat).
  - reflexivity.
  - simpl. lia.
Defined.

(** [cancel_in_one_installation] at work: handle 1 is cancelled before
    timer 0 expires, the timer body never runs; cancelling the unknown
    handle -3 afterwards changes nothing. *)
Lemma cancel_in_one_installation_example :
  ∃ s, run (single 9 [Schedule 7; Cancel 1; TimerFire 0 16]) init = Some s ∧
    history s = [ORequest 0 7 1 0; OCancel 0 1]%nat ∧
    (∀ m cb' now, history s !! m ≠ Some (OInvoke 0 cb' now)) ∧
    ∃ s', cancelAnimationFrame 0 (-3) s = Some s' ∧
      rafHandles s' = rafHandles s ∧ timers s' = timers s.
Proof.
  destruct (cancel_in_one_installation 9
              [Schedule 7; Cancel 1; TimerFire 0 16])
    as (s & Hrun & Hprevent & Htolerate).
  exists s. split; [exact Hrun|].
  vm_compute in Hrun. injection Hrun as <-.
  split_and!.
  - reflexivity.
  - apply (Hprevent 0%nat 1%nat 0%nat 7%nat 1 0%nat 0%nat);
      [reflexivity|reflexivity|lia|].
    intros [|m] cb' now Hm; [discriminate|lia].
  - destruct (Htolerate (-3)) as (s' & Hs' & Htab & Htim & _).
    + left. intros ([|[|i]] & k & cb & t & Hi); discriminate.
    + exists s'. split_and!; [exact Hs'|exact Htab|exact Htim].
Defined.

(** ** Every trace, any number of installations *)

Lemma handles_of_snoc k H o :
  handles_of k (H ++ [o]) =
  handles_of k H ++
  match o with
  | ORequest k' _ id _ => if decide (k' = k) then [id] else []
  | _ => []
  end.
Proof.
  unfold handles_of. rewrite omap_app. f_equal.
  destruct o as [k' cb id t| |]; simpl; [|done|done].
  by destruct (decide (k' = k)).
Qed.

Lemma Sound_init : Sound init.
Proof.
  split; simpl.
  - intros t f. by rewrite lookup_empty.
  - intros i ????; by rewrite lookup_nil.
  - intros i j ???????; by rewrite lookup_nil.
  - intros j ???; by rewrite lookup_nil.
  - intros i j ?????; by rewrite lookup_nil.
  - intros k. by destruct k.
  - constructor.
Qed.

Lemma Sound_patch win s : Sound s → Sound (snd (patchRAF win s)).
Proof.
  intros [Harm Hreq Hreq1 Hinv Hinv1 Hh Hc]. split; simpl; try done.
  - intros k. rewrite Hh. f_equal.
    destruct (decide (k < length (closures s))%nat) as [Hlt|Hge].
    + by rewrite lookup_app_l.
    + rewrite (lookup_ge_None_2 (closures s) k) by lia. simpl.
      destruct (decide (k = length (closures s))) as [->|Hne].
      * by rewrite list_lookup_middle.
      * rewrite lookup_ge_None_2; [done|]. rewrite length_app. simpl. lia.
  - apply Forall_app. split; [done|]. by repeat constructor.
Qed.

Lemma Sound_request k cb s id s' :
  Sound s → requestAnimationFrame k cb s = Some (id, s') → Sound s'.
Proof.
  intros [Harm Hreq Hreq1 Hinv Hinv1 Hh Hc]. unfold requestAnimationFrame.
  destruct (closures s !! k) as [c|] eqn:Hk; [|done]. simpl.
  intros [= <- <-].
  assert (0 ≤ rafId c) as Hpos by apply (Forall_lookup_1 _ _ _ _ Hc Hk).
  split; simpl.
  - intros t f. rewrite lookup_insert_Some.
    intros [[<- <-]|[Hne Hf]]; simpl.
    + split; [lia|]. exists (length (history s)), k.
      apply lookup_snoc_Some. by right.
    + destruct (Harm _ _ Hf) as (Hlt & i & k' & Hi). split; [lia|].
      exists i, k'. apply lookup_snoc_Some. left.
      split; [by eapply lookup_lt_Some|done].
  - intros i k' c' h t Hi. snoc_cases Hi; [|lia]. apply Hreq in Hi. lia.
  - intros i j k1 c1 h1 t k2 c2 h2 Hi Hj. snoc_cases Hi; snoc_cases Hj.
    + by eapply Hreq1.
    + apply Hreq in Hi. lia.
    + apply Hreq in Hj. lia.
    + done.
  - intros j t c' now Hj. snoc_cases Hj.
    destruct (Hinv _ _ _ _ Hj) as (Hnone & i & k' & h & Hij & Hi). split.
    + rewrite lookup_insert_ne; [done|]. apply Hreq in Hi. lia.
    + exists i, k', h. split; [done|]. apply lookup_snoc_Some. left.
      split; [by eapply lookup_lt_Some|done].
  - intros i j t c1 n1 c2 n2 Hi Hj. snoc_cases Hi; snoc_cases Hj.
    by eapply Hinv1.
  - intros k'. rewrite handles_of_snoc, Hh.
    destruct (decide (k = k')) as [<-|Hne].
    + rewrite list_lookup_alter_eq, Hk. simpl.
      rewrite (seqZ_app 1 (rafId c) 1) by lia.
      f_equal. rewrite seqZ_cons by lia. simpl. rewrite seqZ_nil by lia.
      f_equal. lia.
    + rewrite list_lookup_alter_ne by done. by rewrite app_nil_r.
  - apply Forall_lookup. intros i c' Hi.
    destruct (decide (k = i)) as [->|Hne].
    + rewrite list_lookup_alter_eq, Hk in Hi. simpl in Hi.
      injection Hi as <-. simpl. lia.
    + rewrite list_lookup_alter_ne in Hi by done.
      by eapply (Forall_lookup_1 _ _ _ _ Hc).
Qed.

(** A state that differs from a sound one by a cancel or a firing. *)
Lemma Sound_shrink s s' o :
  Sound s →
  closures s' = closures s → next_timeout s' = next_timeout s →
  history s' = history s ++ [o] →
  (∀ t f, timers s' !! t = Some f → timers s !! t = Some f) →
  match o with
  | ORequest _ _ _ _ => False
  | OCancel _ _ => True
  | OInvoke t cb _ =>
      timers s' !! t = None ∧ ∃ f, timers s !! t = Some f ∧ task_cb f = cb
  end →
  Sound s'.
Proof.
  intros [Harm Hreq Hreq1 Hinv Hinv1 Hh Hc] Hcl Hn HH Hsub Ho.
  assert (Hnone : ∀ t, timers s !! t = None → timers s' !! t = None).
  { intros t Ht. destruct (timers s' !! t) as [f|] eqn:Hf; [|done].
    apply Hsub in Hf. congruence. }
  split; rewrite ?Hcl, ?Hn, ?HH.
  - intros t f Hf. apply Hsub in Hf.
    destruct (Harm _ _ Hf) as (Hlt & i & k & Hi). split; [done|].
    exists i, k. apply lookup_snoc_Some. left.
    split; [by eapply lookup_lt_Some|done].
  - intros i k c h t Hi. snoc_cases Hi; [|done]. by eapply Hreq.
  - intros i j k1 c1 h1 t k2 c2 h2 Hi Hj.
    snoc_cases Hi; [|done]. snoc_cases Hj; [|done]. by eapply Hreq1.
  - intros j t c now Hj. snoc_cases Hj.
    + destruct (Hinv _ _ _ _ Hj) as (Ht & i & k & h & Hij & Hi).
      split; [by apply Hnone|]. exists i, k, h. split; [done|].
      apply lookup_snoc_Some. left. split; [by eapply lookup_lt_Some|done].
    + destruct Ho as (Ht & f & Hf & <-). split; [done|].
      destruct (Harm _ _ Hf) as (_ & i & k & Hi).
      exists i, k, (task_id f). split; [by eapply lookup_lt_Some|].
      apply lookup_snoc_Some. left. split; [by eapply lookup_lt_Some|done].
  - intros i j t c1 n1 c2 n2 Hi Hj. snoc_cases Hi; snoc_cases Hj.
    + by eapply Hinv1.
    + destruct Ho as (_ & f & Hf & _).
      destruct (Hinv _ _ _ _ Hi) as (Ht & _). congruence.
    + destruct Ho as (_ & f & Hf & _).
      destruct (Hinv _ _ _ _ Hj) as (Ht & _). congruence.
    + done.
  - intros k. rewrite handles_of_snoc, Hh.
    destruct o; [done| |]; by rewrite app_nil_r.
  - done.
Qed.

Lemma Sound_cancel k id s s' :
  Sound s → cancelAnimationFrame k id s = Some s' → Sound s'.
Proof.
  intros HS. unfold cancelAnimationFrame.
  destruct (closures s !! k); [|done]. simpl.
  destruct (rafHandles s !! id) as [t|]; intros [= <-].
  - apply (Sound_shrink s _ (OCancel k id)); simpl; try done.
    intros t' f. rewrite lookup_delete_Some. by intros [_ ?].
  - by apply (Sound_shrink s _ (OCancel k id)).
Qed.

Lemma Sound_fire t now s : Sound s → Sound (fire t now s).
Proof.
  intros HS. unfold fire. destruct (timers s !! t) as [f|] eqn:Hf; [|done].
  apply (Sound_shrink s _ (OInvoke t (task_cb f) now)); simpl; try done.
  - intros t' f'. rewrite lookup_delete_Some. by intros [_ ?].
  - split; [apply lookup_delete_eq|]. by exists f.
Qed.

Lemma Sound_step e s s' : Sound s → step e s = Some s' → Sound s'.
Proof.
  intros HS. destruct e as [win|k cb|k id|t now]; simpl.
  - intros [= <-]. by apply Sound_patch.
  - destruct (requestAnimationFrame k cb s) as [[id s1]|] eqn:Hr; [|done].
    simpl. intros [= <-]. by eapply Sound_request.
  - by apply Sound_cancel.
  - intros [= <-]. by apply Sound_fire.
Qed.

Lemma Sound_run evs s s' : Sound s → run evs s = Some s' → Sound s'.
Proof.
  revert s. induction evs as [|e evs IH]; intros s HS; simpl.
  - by intros [= <-].
  - destruct (step e s) as [s1|] eqn:Hs; [|done].
    apply IH. by eapply Sound_step.
Qed.

(** What one schedule call does to each component of the state. *)
Lemma request_unfold k cb s c :
  closures s !! k = Some c →
  requestAnimationFrame k cb s =
  Some (rafId c + 1,
        {| rafHandles := <[rafId c + 1 := next_timeout s]> (rafHandles s);
           closures := alter (λ c', mkClosure (rafId c + 1) (c_win c')) k
                         (closures s);
           timers := <[next_timeout s := mkTask (rafId c + 1) cb (c_win c)]>
                       (timers s);
           next_timeout := S (next_timeout s);
           history := history s ++
                      [ORequest k cb (rafId c + 1) (next_timeout s)] |}).
Proof. intros Hk. unfold requestAnimationFrame. by rewrite Hk. Qed.

(** X1.  In every trace, with any number of installations: a callback is
    only ever called by a timer that an earlier schedule call armed with
    that very callback; no timer body runs twice; and no two schedule
    calls share a timer.  So each schedule call leads to at most one
    call of its callback. *)
Theorem invocations_answer_requests (evs : list event) (s : State) :
  run evs init = Some s →
  (∀ j t cb now, history s !! j = Some (OInvoke t cb now) →
     ∃ i k h, (i < j)%nat ∧ history s !! i = Some (ORequest k cb h t)) ∧
  (∀ i j t cb now cb' now',
     history s !! i = Some (OInvoke t cb now) →
     history s !! j = Some (OInvoke t cb' now') → i = j) ∧
  (∀ i j k cb h t k' cb' h',
     history s !! i = Some (ORequest k cb h t) →
     history s !! j = Some (ORequest k' cb' h' t) → i = j).
Proof.
  intros Hrun. pose proof (Sound_run _ _ _ Sound_init Hrun) as HS.
  split_and!.
  - intros j t cb now Hj. by destruct (snd_invoke _ HS _ _ _ _ Hj).
  - apply (snd_invoke_once _ HS).
  - apply (snd_request_once _ HS).
Qed.

(** The theorem above on two installations that use the same callback:
    the call recorded at position 3 answers the request at position 1. *)
Lemma invocations_answer_requests_witness :
  ∃ s, run [EPatch 1; EPatch 2; ERequest 0 7; ERequest 1 7; ECancel 0 1;
            EFire 0 32; EFire 1 33]%nat init = Some s ∧
    history s !! 3%nat = Some (OInvoke 0 7 32) ∧
    ∃ i k h, (i < 3)%nat ∧ history s !! i = Some (ORequest k 7 h 0).
Proof.
  eexists. split; [vm_compute; reflexivity|]. split; [reflexivity|].
  eapply (invocations_answer_requests
            [EPatch 1; EPatch 2; ERequest 0 7; ERequest 1 7; ECancel 0 1;
             EFire 0 32; EFire 1 33]%nat).
  - vm_compute. reflexivity.
  - reflexivity.
Defined.



(** X3.  For one installation, after every trace the handle table and
    the host's timer queue describe the same pending frames: handle [h]
    maps to timeout [t] exactly when [t] is armed with the body made for
    [h].  No timer is armed without being cancellable, and no entry
    outlives its timer. *)
Theorem table_mirrors_timers (w : nat) (ops : list op) :
  ∃ s, run (single w ops) init = Some s ∧
    ∀ h t, rafHandles s !! h = Some t ↔
           ∃ cb, timers s !! t = Some (mkTask h cb w).
Proof.
  destruct (Inv_single w ops) as (s & Hrun & HI).
  exists s. split; [done|]. intros h t.
  rewrite (inv_table _ _ HI). split.
  - intros [cb Hl]. exists cb. by apply (inv_queue _ _ HI).
  - intros [cb Hf]. exists cb. by apply (inv_queue _ _ HI) in Hf as [Hl _].
Qed.

(** X4.  For one installation, every frame that is pending does run when
    its timer expires: the body removes the handle from the table and
    calls the callback that was passed when that handle was issued, with
    the time read at that moment. *)
Theorem pending_frame_runs (w : nat) (ops : list op) :
  ∃ s, run (single w ops) init = Some s ∧
    ∀ h t, rafHandles s !! h = Some t →
      ∃ cb i, history s !! i = Some (ORequest 0%nat cb h t) ∧
        ∀ now,
          history (fire t now s) = history s ++ [OInvoke t cb now] ∧
          rafHandles (fire t now s) = delete h (rafHandles s) ∧
          timers (fire t now s) = delete t (timers s).
Proof.
  destruct (Inv_single w ops) as (s & Hrun & HI).
  exists s. split; [done|]. intros h t Hh.
  apply (inv_table _ _ HI) in Hh as [cb Hl].
  assert (timers s !! t = Some (mkTask h cb w)) as Hf
    by (by apply (inv_queue _ _ HI)).
  destruct Hl as (i & k & Hi & _).
  destruct (inv_counter _ _ HI) as (n & _ & _ & Hreq).
  destruct (Hreq _ _ _ _ _ Hi) as [-> _].
  exists cb, i. split; [done|]. intros now.
  unfold fire. by rewrite Hf.
Qed.

Lemma pending_frame_runs_witness :
  ∃ s, run (single 9 [Schedule 4; Schedule 5; Cancel 1]) init = Some s ∧
    rafHandles s !! 2 = Some 1%nat ∧
    history (fire 1 48 s) = history s ++ [OInvoke 1 5 48].
Proof.
  destruct (pending_frame_runs 9 [Schedule 4; Schedule 5; Cancel 1])
    as (s & Hrun & Hpending).
  exists s. split; [exact Hrun|].
  vm_compute in Hrun. injection Hrun as <-.
  split; [reflexivity|].
  destruct (Hpending 2 1%nat) as (cb & i & Hi & Hfire); [reflexivity|].
  reflexivity.
Defined.

(** X5.  In any state, cancelling the same handle a second time changes
    nothing: the table, the armed timers and the counters are as the
    first cancel left them. *)
Theorem cancel_twice_is_cancel_once (k : nat) (id : Z) (s s1 : State) :
  cancelAnimationFrame k id s = Some s1 →
  ∃ s2, cancelAnimationFrame k id s1 = Some s2 ∧
    rafHandles s2 = rafHandles s1 ∧ timers s2 = timers s1 ∧
    closures s2 = closures s1 ∧ next_timeout s2 = next_timeout s1.
Proof.
  unfold cancelAnimationFrame.
  destruct (closures s !! k) as [c|] eqn:Hk; [|done]. simpl.
  destruct (rafHandles s !! id) as [t|] eqn:Hid; intros [= <-]; simpl;
    rewrite Hk.
  - rewrite lookup_delete_eq. by eexists.
  - rewrite Hid. by eexists.
Qed.

Lemma cancel_twice_is_cancel_once_witness :
  ∃ s s1 s2,
    run [EPatch 9; ERequest 0 7]%nat init = Some s ∧
    cancelAnimationFrame 0 1 s = Some s1 ∧
    cancelAnimationFrame 0 1 s1 = Some s2 ∧
    rafHandles s2 = rafHandles s1 ∧ timers s2 = timers s1.
Proof.
  eexists _, _. 
  destruct (cancel_twice_is_cancel_once 0 1
              (default init (run [EPatch 9; ERequest 0 7]%nat init))
              (default init (cancelAnimationFrame 0 1
                 (default init (run [EPatch 9; ERequest 0 7]%nat init)))))
    as (s2 & Hs2 & Htab & Htim & _); [vm_compute; reflexivity|].
  exists s2. split_and!; [vm_compute; reflexivity|vm_compute; reflexivity
                         |exact Hs2|exact Htab|exact Htim].
Defined.

(** X6.  For one installation, scheduling a frame and cancelling the
    handle just returned puts the handle table and the timer queue back
    exactly as they were; only the counter has moved on. *)
Theorem schedule_then_cancel_restores (w : nat) (ops : list op) (cb : nat) :
  ∃ s id s1 s2,
    run (single w ops) init = Some s ∧
    requestAnimationFrame 0 cb s = Some (id, s1) ∧
    cancelAnimationFrame 0 id s1 = Some s2 ∧
    rafHandles s2 = rafHandles s ∧ timers s2 = timers s ∧
    closures s2 = [mkClosure id w].
Proof.
  destruct (Inv_single w ops) as (s & Hrun & HI).
  destruct (inv_counter _ _ HI) as (n & Hcl & Hn & Hreq).
  assert (closures s !! 0%nat = Some (mkClosure n w)) as Hk by (by rewrite Hcl).
  assert (rafHandles s !! (n + 1) = None) as Hfree.
  { destruct (rafHandles s !! (n + 1)) as [t|] eqn:Ht; [|done].
    apply (inv_table _ _ HI) in Ht as (c & i & k & Hi & _).
    destruct (Hreq _ _ _ _ _ Hi). lia. }
  assert (timers s !! next_timeout s = None) as Hidle.
  { destruct (timers s !! next_timeout s) as [f|] eqn:Hf; [|done].
    apply (inv_queue _ _ HI) in Hf as [(i & k & Hi & _) _].
    apply (inv_fresh _ _ HI) in Hi. lia. }
  eexists s, _, _, _. split_and!; [done|by apply request_unfold| | | |].
  - unfold cancelAnimationFrame. simpl. rewrite Hcl. simpl.
    rewrite lookup_insert_eq. reflexivity.
  - simpl. rewrite delete_insert_eq. by apply delete_id.
  - simpl. rewrite delete_insert_eq. by apply delete_id.
  - done.
Qed.

(** X7.  In any state, two installations whose counters are equal hand
    out the same handle.  The second schedule call then replaces the
    entry of the first in the shared table; cancelling that handle,
    through either installation, disarms the second frame, while the
    first stays armed with no entry left to cancel it by. *)
Theorem equal_counters_collide (s : State) (k1 k2 : nat) (c1 c2 : Closure)
    (cbA cbB : nat) :
  k1 ≠ k2 → closures s !! k1 = Some c1 → closures s !! k2 = Some c2 →
  rafId c1 = rafId c2 →
  ∃ s1 s2 s3,
    requestAnimationFrame k1 cbA s = Some (rafId c1 + 1, s1) ∧
    requestAnimationFrame k2 cbB s1 = Some (rafId c1 + 1, s2) ∧
    rafHandles s2 !! (rafId c1 + 1) = Some (S (next_timeout s)) ∧
    timers s2 !! next_timeout s = Some (mkTask (rafId c1 + 1) cbA (c_win c1)) ∧
    cancelAnimationFrame k1 (rafId c1 + 1) s2 = Some s3 ∧
    timers s3 !! S (next_timeout s) = None ∧
    timers s3 !! next_timeout s = Some (mkTask (rafId c1 + 1) cbA (c_win c1)) ∧
    rafHandles s3 !! (rafId c1 + 1) = None.
Proof.
  intros Hne Hk1 Hk2 Heq.
  eexists _, _, _. split_and!.
  - by apply request_unfold.
  - rewrite Heq. apply request_unfold. simpl.
    by rewrite list_lookup_alter_ne.
  - simpl. rewrite Heq. apply lookup_insert_eq.
  - simpl. rewrite lookup_insert_ne by lia. rewrite Heq. apply lookup_insert_eq.
  - unfold cancelAnimationFrame. simpl.
    rewrite list_lookup_alter_ne by done.
    rewrite list_lookup_alter_eq, Hk1. simpl.
    rewrite Heq, lookup_insert_eq. reflexivity.
  - simpl. apply lookup_delete_eq.
  - simpl. rewrite lookup_delete_ne by lia.
    rewrite lookup_insert_ne by lia. rewrite Heq. apply lookup_insert_eq.
  - simpl. rewrite Heq. apply lookup_delete_eq.
Qed.

Lemma equal_counters_collide_witness :
  ∃ s1 s2 s3,
    requestAnimationFrame 0 7 (snd (patchRAF 2 (snd (patchRAF 1 init))))
      = Some (1, s1) ∧
    requestAnimationFrame 1 8 s1 = Some (1, s2) ∧
    rafHandles s2 !! 1 = Some 1%nat ∧
    timers s2 !! 0%nat = Some (mkTask 1 7 1) ∧
    cancelAnimationFrame 0 1 s2 = Some s3 ∧
    timers s3 !! 1%nat = None ∧
    timers s3 !! 0%nat = Some (mkTask 1 7 1) ∧
    rafHandles s3 !! 1 = None.
Proof.
  apply (equal_counters_collide (snd (patchRAF 2 (snd (patchRAF 1 init))))
           0 1 (mkClosure 0 1) (mkClosure 0 2) 7 8);
    [lia|reflexivity|reflexivity|reflexivity].
Defined.

(** ** One installation, by the steps of the program *)

Lemma answers_from_snoc ops o s0 s :
  run (map (on 0%nat) ops) s0 = Some s →
  answers_from (ops ++ [o]) s0 = answers_from ops s0 ++ [answer_of o s].
Proof.
  revert s0. induction ops as [|a ops IH]; intros s0; simpl.
  - intros [= <-]. by destruct (step (on 0%nat o) s0).
  - destruct (step (on 0%nat a) s0) as [s1|]; [|done].
    intros Hrun. by rewrite (IH s1 Hrun).
Qed.

Lemma answers_from_length ops s0 s :
  run (map (on 0%nat) ops) s0 = Some s →
  length (answers_from ops s0) = length ops.
Proof.
  revert s0. induction ops as [|a ops IH]; intros s0; simpl; [done|].
  destruct (step (on 0%nat a) s0) as [s1|]; [|done].
  intros Hrun. by rewrite (IH s1 Hrun).
Qed.

(** Pending handles after one more step. *)
Lemma pending_snoc ops A o a h t :
  length A = length ops →
  pending (ops ++ [o]) (A ++ [a]) h t ↔
  (pending ops A h t ∧ (∀ now, o ≠ TimerFire t now) ∧ o ≠ Cancel h) ∨
  ((∃ cb, o = Schedule cb) ∧ a = Issued h t).
Proof.
  intros Hlen. split.
  - intros (p & [[cb Hp] Ha] & Hnf & Hnc).
    apply lookup_snoc_Some in Hp as [[Hlt Hp]|[-> Hp]].
    + left. apply lookup_snoc_Some in Ha as [[_ Ha]|[Hpe _]]; [|lia].
      split_and!.
      * exists p. split_and!; [split; [by exists cb|done]| |].
        -- intros (q & now & Hpq & Hq). apply Hnf. exists q, now.
           split; [done|]. apply lookup_snoc_Some. left.
           split; [by eapply lookup_lt_Some|done].
        -- intros (q & Hpq & Hq). apply Hnc. exists q.
           split; [done|]. apply lookup_snoc_Some. left.
           split; [by eapply lookup_lt_Some|done].
      * intros now ->. apply Hnf. exists (length ops), now.
        split; [done|]. apply lookup_snoc_Some. by right.
      * intros ->. apply Hnc. exists (length ops).
        split; [done|]. apply lookup_snoc_Some. by right.
    + right. split; [by exists cb|].
      apply lookup_snoc_Some in Ha as [[Hlt _]|[_ Ha]]; [lia|done].
  - intros [((p & [[cb Hp] Ha] & Hnf & Hnc) & Hof & Hoc)|[[cb ->] ->]].
    + exists p. split_and!.
      * split.
        -- exists cb. apply lookup_snoc_Some. left.
           split; [by eapply lookup_lt_Some|done].
        -- apply lookup_snoc_Some. left.
           split; [by eapply lookup_lt_Some|done].
      * intros (q & now & Hpq & Hq).
        apply lookup_snoc_Some in Hq as [[_ Hq]|[_ Hq]].
        -- apply Hnf. by exists q, now.
        -- by eapply Hof.
      * intros (q & Hpq & Hq).
        apply lookup_snoc_Some in Hq as [[_ Hq]|[_ Hq]].
        -- apply Hnc. by exists q.
        -- done.
    + exists (length ops). split_and!.
      * split.
        -- exists cb. apply lookup_snoc_Some. by right.
        -- apply lookup_snoc_Some. right. by rewrite Hlen.
      * intros (q & now & Hpq & Hq).
        apply lookup_lt_Some in Hq. rewrite length_app in Hq. simpl in Hq. lia.
      * intros (q & Hpq & Hq).
        apply lookup_lt_Some in Hq. rewrite length_app in Hq. simpl in Hq. lia.
Qed.

(** In a state of [Inv], the table and the timer queue agree, and the
    handles in the table are at most the counter. *)
Lemma Inv_sync w s h t :
  Inv w s →
  rafHandles s !! h = Some t ↔ ∃ cb, timers s !! t = Some (mkTask h cb w).
Proof.
  intros HI. rewrite (inv_table _ _ HI). split.
  - intros [cb Hl]. exists cb. by apply (inv_queue _ _ HI).
  - intros [cb Hf]. exists cb. by apply (inv_queue _ _ HI) in Hf as [Hl _].
Qed.

Lemma Inv_key_bound w s h t n :
  Inv w s → closures s = [mkClosure n w] →
  rafHandles s !! h = Some t → 1 ≤ h ≤ n.
Proof.
  intros HI Hcl Hh.
  apply (inv_table _ _ HI) in Hh as (cb & i & k & Hi & _).
  destruct (inv_counter _ _ HI) as (n' & Hcl' & _ & Hreq).
  rewrite Hcl in Hcl'. injection Hcl' as <-.
  by destruct (Hreq _ _ _ _ _ Hi).
Qed.

(** One installation: after every trace, the table holds exactly the
    handles that are pending by the program's own steps, each with the
    timeout handed out when it was issued. *)
Lemma pending_single w ops :
  ∃ s, run (single w ops) init = Some s ∧ Inv w s ∧
    length (answers w ops) = length ops ∧
    (∀ h t, rafHandles s !! h = Some t ↔ pending ops (answers w ops) h t) ∧
    (∀ t f, timers s !! t = Some f →
       ∃ p, ops !! p = Some (Schedule (task_cb f)) ∧
         answers w ops !! p = Some (Issued (task_id f) t)).
Proof.
  induction ops as [|o ops IH] using rev_ind.
  - eexists. split_and!; [reflexivity|apply Inv_patch|done| |].
    + intros h t. simpl. rewrite lookup_empty. split; [done|].
      by intros (p & [[cb Hp] _] & _).
    + intros t f. simpl. by rewrite lookup_empty.
  - destruct IH as (s & Hrun & HI & Hlen & Htab & Hcbs).
    destruct (Inv_on w o s HI) as (s' & Hstep & HI').
    destruct (inv_counter _ _ HI) as (n & Hcl & Hn & _).
    assert (closures s !! 0%nat = Some (mkClosure n w)) as Hk
      by (by rewrite Hcl).
    assert (answers w (ops ++ [o]) = answers w ops ++ [answer_of o s])
      as Hsnoc by (by apply answers_from_snoc).
    assert (Hans : answer_of o s =
                   match o with
                   | Schedule _ => Issued (n + 1) (next_timeout s)
                   | _ => Done
                   end).
    { destruct o; simpl; [by rewrite (request_unfold _ _ _ _ Hk)|done|done]. }
    rewrite Hsnoc, Hans.
    assert (Hold : ∀ t f, timers s !! t = Some f →
              ∃ p, (ops ++ [o]) !! p = Some (Schedule (task_cb f)) ∧
                (answers w ops ++
                 [match o with
                  | Schedule _ => Issued (n + 1) (next_timeout s)
                  | _ => Done
                  end]) !! p = Some (Issued (task_id f) t)).
    { intros t f Hf. destruct (Hcbs t f Hf) as (p & Hp & Ha).
      exists p. split; apply lookup_snoc_Some; left;
        (split; [by eapply lookup_lt_Some|done]). }
    exists s'. split_and!.
    + by rewrite single_snoc, run_snoc, Hrun.
    + done.
    + rewrite !length_app. by rewrite Hlen.
    + intros h t. rewrite pending_snoc by done. rewrite <- Htab.
      destruct o as [cb|id|t0 now]; cbn [step on] in Hstep.
      * rewrite (request_unfold _ _ _ _ Hk) in Hstep.
        injection Hstep as <-. cbn [rafHandles].
        rewrite lookup_insert_Some. split.
        -- intros [[<- <-]|[Hne Hh]].
           ++ right. split; [by exists cb|done].
           ++ left. by split_and!.
        -- intros [(Hh & _ & _)|[_ [= -> ->]]]; [|by left].
           right. split; [|done].
           pose proof (Inv_key_bound _ _ _ _ _ HI Hcl Hh). lia.
      * unfold cancelAnimationFrame in Hstep. rewrite Hk in Hstep.
        cbn [record rafHandles] in Hstep.
        destruct (rafHandles s !! id) as [t1|] eqn:Hid;
          injection Hstep as <-; cbn.
        -- rewrite lookup_delete_Some. split.
           ++ intros [Hne Hh]. left. split_and!; [done|done|congruence].
           ++ intros [(Hh & _ & Hnc)|[[cb [=]] _]].
              split; [congruence|done].
        -- split.
           ++ intros Hh. left. split_and!; [done|done|congruence].
           ++ by intros [(Hh & _ & _)|[[cb [=]] _]].
      * injection Hstep as <-. unfold fire.
        destruct (timers s !! t0) as [f|] eqn:Hf; cbn.
        -- assert (rafHandles s !! task_id f = Some t0) as Hidf.
           { apply (Inv_sync w s); [done|].
             exists (task_cb f).
             apply (inv_queue _ _ HI) in Hf as Hq. destruct Hq as [_ Hw].
             destruct f; simpl in *. by subst. }
           rewrite lookup_delete_Some. split.
           ++ intros [Hne Hh]. left. split_and!; [done| |done].
              intros now' [= <- _].
              apply (Inv_sync w s _ _ HI) in Hh as [c Hh].
              rewrite Hf in Hh. injection Hh as ->. done.
           ++ intros [(Hh & Hnf & _)|[[cb [=]] _]].
              split; [|done]. intros <-.
              rewrite Hidf in Hh. injection Hh as <-. by eapply Hnf.
        -- split.
           ++ intros Hh. left. split_and!; [done| |done].
              intros now' [= <- _].
              apply (Inv_sync w s _ _ HI) in Hh as [c Hh]. congruence.
           ++ by intros [(Hh & _ & _)|[[cb [=]] _]].
    + intros t f. destruct o as [cb|id|t0 now]; cbn [step on] in Hstep.
      * rewrite (request_unfold _ _ _ _ Hk) in Hstep.
        injection Hstep as <-. cbn [timers].
        rewrite lookup_insert_Some.
        intros [[<- <-]|[_ Hf]]; [|by apply Hold]. cbn.
        exists (length ops). split; apply lookup_snoc_Some; right;
          [done|]. split; [|done]. by rewrite <- Hlen.
      * unfold cancelAnimationFrame in Hstep. rewrite Hk in Hstep.
        cbn [record rafHandles] in Hstep.
        destruct (rafHandles s !! id) as [t1|];
          injection Hstep as <-; cbn; [|by apply Hold].
        rewrite lookup_delete_Some. intros [_ Hf]. by apply Hold.
      * injection Hstep as <-. unfold fire.
        destruct (timers s !! t0) as [f0|] eqn:Hf0; cbn;
          [|by apply Hold].
        rewrite lookup_delete_Some. intros [_ Hf]. by apply Hold.
Qed.

Example answers_of_a_program :
  answers 9 [Schedule 4; Schedule 5; Cancel 1; TimerFire 1 17; Schedule 6]
  = [Issued 1 0; Issued 2 1; Done; Done; Issued 3 2].
Proof. reflexivity. Qed.

(** C4.  For one installation of the shim, every sequence of schedule,
    cancel and timer-fire steps runs to a final state, and in it a
    handle is a key of the handle table if and only if some step of the
    program scheduled a callback and was answered that handle, and
    since that step neither the timeout handed out for it has expired
    nor the program has cancelled the handle.  The same holds against
    the recorded history.  From that state, a schedule call adds an
    entry for the new handle it returns, and that only; a cancel
    removes the entry of its handle, and that only; and when the
    timeout of a pending handle expires, the callback passed at issue
    is called in a state where the entry is already gone, whatever the
    callback then does. *)
Theorem handle_table_tracks_pending (w : nat) (ops : list op) :
  ∃ s, run (single w ops) init = Some s ∧
    (∀ h, h ∈ dom (rafHandles s) ↔
       ∃ p t, issued ops (answers w ops) h p t ∧
         ¬ fired_since ops p t ∧ ¬ cancelled_since ops p h) ∧
    (∀ h, h ∈ dom (rafHandles s) ↔
       scheduled (history s) h ∧ ¬ fired (history s) h ∧
       ¬ cancelled (history s) h) ∧
    (∀ cb, ∃ id s',
       requestAnimationFrame 0 cb s = Some (id, s') ∧
       rafHandles s !! id = None ∧
       rafHandles s' = <[id := next_timeout s]> (rafHandles s)) ∧
    (∀ h, ∃ s',
       cancelAnimationFrame 0 h s = Some s' ∧
       rafHandles s' = delete h (rafHandles s)) ∧
    (∀ h t, rafHandles s !! h = Some t →
       ∃ cb p, ops !! p = Some (Schedule cb) ∧
         answers w ops !! p = Some (Issued h t) ∧
         ∀ now,
           rafHandles (fire t now s) = delete h (rafHandles s) ∧
           ∀ behaviour,
             fire_calling behaviour t now s =
             behaviour cb now (fire t now s)).
Proof.
  destruct (pending_single w ops) as (s & Hrun & HI & Hlen & Htab & Hcbs).
  destruct (inv_counter _ _ HI) as (n & Hcl & Hn & _).
  assert (closures s !! 0%nat = Some (mkClosure n w)) as Hk
    by (by rewrite Hcl).
  exists s. split_and!; [done| | | | |].
  - intros h. rewrite elem_of_dom. unfold is_Some. split.
    + intros [t Hh]. apply Htab in Hh as (p & Hi & Hnf & Hnc).
      by exists p, t.
    + intros (p & t & Hi & Hnf & Hnc). exists t. apply Htab. by exists p.
  - intros h. by apply (Inv_pending w).
  - intros cb. rewrite (request_unfold _ _ _ _ Hk). simpl.
    eexists _, _. split_and!; [reflexivity| |done].
    destruct (rafHandles s !! (n + 1)) as [t|] eqn:Ht; [|done].
    pose proof (Inv_key_bound _ _ _ _ _ HI Hcl Ht). lia.
  - intros h. unfold cancelAnimationFrame. rewrite Hk. simpl.
    destruct (rafHandles s !! h) as [t|] eqn:Hh.
    + by eexists.
    + eexists. split; [reflexivity|]. simpl. by rewrite delete_id.
  - intros h t Hh.
    pose proof (proj1 (Inv_sync w s h t HI) Hh) as [cb Hf].
    destruct (Hcbs t _ Hf) as (p & Hp & Ha). simpl in Hp, Ha.
    exists cb, p. split_and!; [done|done|]. intros now.
    unfold fire, fire_calling. rewrite Hf. by split.
Qed.

(** C5 (what the code does instead).  With two installations on the
    one module-level table, neither half of the claim holds.  First,
    installation 0 schedules callback 7 and gets handle 1, installation
    1 schedules callback 8 and gets handle 1 too; installation 0
    cancels handle 1 before any timer has expired, and yet, when the
    timers expire, callback 7 is called.  Second, installation 1 has
    issued no handle at all when it cancels handle 1: the handle is
    unknown to it, but the call removes the entry of installation 0 and
    disarms its timer, so callback 7 never runs.  Third, installation 0
    cancels its handle 1 and then, after installation 1 has been issued
    handle 1, cancels it again: the second cancel, of a handle already
    cancelled, disarms the frame of installation 1. *)
Theorem cancel_crosses_installations :
  (∃ s,
     run [EPatch 1; EPatch 2; ERequest 0 7; ERequest 1 8; ECancel 0 1;
          EFire 0 32; EFire 1 33]%nat init = Some s ∧
     history s = [ORequest 0 7 1 0; ORequest 1 8 1 1; OCancel 0 1;
                  OInvoke 0 7 32]%nat) ∧
  (∃ s s',
     run [EPatch 1; EPatch 2; ERequest 0 7]%nat init = Some s ∧
     handles_of 1 (history s) = [] ∧
     rafHandles s = {[ 1 := 0%nat ]} ∧
     timers s = {[ 0%nat := mkTask 1 7 1 ]} ∧
     cancelAnimationFrame 1 1 s = Some s' ∧
     rafHandles s' = ∅ ∧ timers s' = ∅ ∧
     history (fire 0 32 s') = [ORequest 0 7 1 0; OCancel 1 1]%nat) ∧
  (∃ s s',
     run [EPatch 1; EPatch 2; ERequest 0 7; ECancel 0 1; ERequest 1 8]%nat
       init = Some s ∧
     timers s = {[ 1%nat := mkTask 1 8 2 ]} ∧
     cancelAnimationFrame 0 1 s = Some s' ∧
     timers s' = ∅ ∧
     history (fire 1 33 s') =
       [ORequest 0 7 1 0; OCancel 0 1; ORequest 1 8 1 1; OCancel 0 1]%nat).
Proof.
  split_and!.
  - eexists. split; vm_compute; reflexivity.
  - eexists _, _. split_and!; vm_compute; reflexivity.
  - eexists _, _. split_and!; vm_compute; reflexivity.
Qed.

End RafFacts.

(* ===================================================================== *)
(** * Properties of the geometry patch                                    *)
(* ===================================================================== *)

Module GeometryFacts.
Import JS Geometry.

(** A descriptor that carries a value and no accessor makes a data
    property with that value; [writable: true] and [configurable: true]
    are obeyed. *)
Lemma validate_value ext v wr cf cur pr :
  ValidateAndApplyPropertyDescriptor ext
    (mkDesc (Some v) wr None None None cf) cur = Some pr →
  ∃ w e c, pr = Data v w e c ∧
    (wr = Some true → w = true) ∧ (cf = Some true → c = true).
Proof.
  unfold ValidateAndApplyPropertyDescriptor.
  destruct cur as [[v0 w0 e0 c0|g s e0 c0]|]; simpl.
  - destruct (negb c0 && _); [done|]. intros [= <-].
    eexists _, _, _. split; [done|]. split; intros ->; done.
  - destruct (negb c0 && _); [done|]. intros [= <-].
    eexists _, _, _. split; [done|]. split; intros ->; done.
  - destruct ext; simpl; [|done]. intros [= <-].
    eexists _, _, _. split; [done|]. split; intros ->; done.
Qed.

(** On an object without the property, a bare [{ value }] makes it
    read-only and not configurable. *)
Lemma validate_fresh v :
  ValidateAndApplyPropertyDescriptor true
    (mkDesc (Some v) None None None None None) None
  = Some (Data v false false false).
Proof. reflexivity. Qed.

(** Such a property refuses any other value. *)
Lemma validate_frozen ext v v' :
  v' ≠ v →
  ValidateAndApplyPropertyDescriptor ext
    (mkDesc (Some v') None None None None None)
    (Some (Data v false false false)) = None.
Proof.
  intros Hne. unfold ValidateAndApplyPropertyDescriptor, differs. simpl.
  by rewrite bool_decide_eq_false_2 by done.
Qed.

Lemma define_Normal O P d w w' :
  define O P d w = (Normal (), w') →
  ∃ o pr, heap w !! O = Some o ∧
    ValidateAndApplyPropertyDescriptor (extensible o) d (props o !! P)
      = Some pr ∧
    w' = with_heap w (<[O := with_prop o P pr]> (heap w)).
Proof.
  unfold define, defineProperty.
  destruct (heap w !! O) as [o|] eqn:HO; [|done].
  destruct (IsAccessorDescriptor d && IsDataDescriptor d); [done|].
  destruct (ValidateAndApplyPropertyDescriptor _ _ _) as [pr|] eqn:Hv; [|done].
  intros [= <-]. by exists o, pr.
Qed.

Lemma own_lookup h l o P : h !! l = Some o → own h l P = props o !! P.
Proof. unfold own. by intros ->. Qed.

Lemma own_insert_eq h O o P pr :
  own (<[O := with_prop o P pr]> h) O P = Some pr.
Proof. unfold own. rewrite lookup_insert_eq. simpl. apply lookup_insert_eq. Qed.

Lemma own_insert_key h O o P pr l Q :
  h !! O = Some o → P ≠ Q →
  own (<[O := with_prop o P pr]> h) l Q = own h l Q.
Proof.
  intros HO Hne. unfold own.
  destruct (decide (l = O)) as [->|Hl].
  - rewrite lookup_insert_eq, HO. simpl. by apply lookup_insert_ne.
  - by rewrite lookup_insert_ne.
Qed.

(** The steps of a [patchGeometry] that completes. *)
Lemma patchGeometry_steps w w1 :
  patchGeometry w = (Normal (), w1) →
  ∃ wa wb,
    define (HTMLElement_prototype w) "getBoundingClientRect"
      (mkDesc (Some (VFunction (MockRect (evaluations w))))
              None None None None None)
      (snd (new_method w)) = (Normal (), wa) ∧
    define (window_object w) "innerWidth"
      (mkDesc (Some (VNumber 1280)) (Some true) None None None (Some true))
      wa = (Normal (), wb) ∧
    define (window_object w) "innerHeight"
      (mkDesc (Some (VNumber 720)) (Some true) None None None (Some true))
      wb = (Normal (), w1).
Proof.
  unfold patchGeometry, andThen. simpl.
  destruct (define (HTMLElement_prototype w) _ _ _) as [[[]| |] wa] eqn:Ha;
    [|done|done].
  destruct (define (window_object w) "innerWidth" _ wa) as [[[]| |] wb] eqn:Hb;
    [|done|done].
  intros Hc. by exists wa, wb.
Qed.

(** What a completed [patchGeometry] leaves behind. *)
Lemma patchGeometry_result w w1 :
  patchGeometry w = (Normal (), w1) →
  window_object w1 = window_object w ∧
  HTMLElement_prototype w1 = HTMLElement_prototype w ∧
  evaluations w1 = S (evaluations w) ∧
  (∃ wr en cf,
     own (heap w1) (HTMLElement_prototype w) "getBoundingClientRect"
     = Some (Data (VFunction (MockRect (evaluations w))) wr en cf) ∧
     (own (heap w) (HTMLElement_prototype w) "getBoundingClientRect" = None →
      wr = false ∧ en = false ∧ cf = false)) ∧
  (∃ en, own (heap w1) (window_object w) "innerWidth"
         = Some (Data (VNumber 1280) true en true)) ∧
  (∃ en, own (heap w1) (window_object w) "innerHeight"
         = Some (Data (VNumber 720) true en true)) ∧
  is_Some (heap w1 !! window_object w).
Proof.
  intros Hp. apply patchGeometry_steps in Hp as (wa & wb & Ha & Hb & Hc).
  apply define_Normal in Ha as (oa & pa & HOa & Hva & ->).
  apply define_Normal in Hb as (ob & pb & HOb & Hvb & ->).
  apply define_Normal in Hc as (oc & pc & HOc & Hvc & ->).
  simpl in *.
  split_and!; [done|done|done| | | |].
  - destruct (validate_value _ _ _ _ _ _ Hva) as (wr & en & cf & -> & _).
    exists wr, en, cf. split.
    + rewrite (own_insert_key _ _ _ _ _ _ _ HOc) by done.
      rewrite (own_insert_key _ _ _ _ _ _ _ HOb) by done.
      apply own_insert_eq.
    + intros Hnone. rewrite (own_lookup _ _ _ _ HOa) in Hnone.
      rewrite Hnone in Hva. simpl in Hva.
      destruct (extensible oa); simpl in Hva; [|done].
      by injection Hva as <- <- <-.
  - destruct (validate_value _ _ _ _ _ _ Hvb) as (wr & en & cf & -> & Hw & Hcf).
    rewrite (Hw eq_refl), (Hcf eq_refl) in *. exists en.
    rewrite (own_insert_key _ _ _ _ _ _ _ HOc) by done.
    apply own_insert_eq.
  - destruct (validate_value _ _ _ _ _ _ Hvc) as (wr & en & cf & -> & Hw & Hcf).
    rewrite (Hw eq_refl), (Hcf eq_refl) in *. exists en.
    apply own_insert_eq.
  - rewrite lookup_insert_eq. by eexists.
Qed.

Lemma find_through h before target after P pr :
  Forall (λ l, own h l P = None) before →
  own h target P = Some pr →
  find_property h (before ++ target :: after) P = Some pr.
Proof.
  intros Hb Ht. induction Hb as [|l before Hl Hb IH]; simpl.
  - by rewrite Ht.
  - by rewrite Hl.
Qed.

Lemma get_inherited h e P target v wr en cf :
  own h target P = Some (Data v wr en cf) →
  inherits_through h e P target →
  get h e P = Normal v.
Proof.
  intros Ht (o & before & after & He & Hchain & Hb).
  unfold get. rewrite He, Hchain.
  by rewrite (find_through _ _ _ _ _ _ Hb Ht).
Qed.

Lemma read_own w P v wr en cf :
  own (heap w) (window_object w) P = Some (Data v wr en cf) →
  read w P = Normal v.
Proof.
  intros Ho. unfold read, get.
  destruct (heap w !! window_object w) as [o|] eqn:Hw.
  - simpl. by rewrite Ho.
  - unfold own in Ho. by rewrite Hw in Ho.
Qed.

(** A writable data property of the window takes any value assigned. *)
Lemma assign_writable w P x en cf v :
  own (heap w) (window_object w) P = Some (Data x true en cf) →
  ∃ w2, assign w P v = (Normal (), w2) ∧ read w2 P = Normal v.
Proof.
  intros Ho. unfold assign, set.
  destruct (heap w !! window_object w) as [o|] eqn:Hw;
    [|unfold own in Ho; by rewrite Hw in Ho].
  simpl. rewrite Ho.
  rewrite (own_lookup _ _ _ _ Hw) in Ho. rewrite Ho.
  unfold ValidateAndApplyPropertyDescriptor. simpl.
  rewrite andb_false_r. simpl.
  eexists. split; [reflexivity|].
  eapply read_own. simpl. apply own_insert_eq.
Qed.

(** The patch on a prototype without the method, applied again: the
    second definition is refused. *)
Lemma patchGeometry_again w w1 :
  own (heap w) (HTMLElement_prototype w) "getBoundingClientRect" = None →
  patchGeometry w = (Normal (), w1) →
  patchGeometry w1 =
    (Throw (TypeError "Cannot redefine property: getBoundingClientRect"),
     snd (new_method w1)).
Proof.
  intros Hnone Hp.
  destruct (patchGeometry_result w w1 Hp)
    as (Hwin & Htgt & Hev & (wr & en & cf & Hown & Hflags) & _).
  destruct (Hflags Hnone) as (-> & -> & ->).
  unfold patchGeometry, andThen, define, defineProperty. simpl.
  rewrite Htgt, Hev.
  unfold own in Hown.
  destruct (heap w1 !! HTMLElement_prototype w) as [o1|]; [|done].
  simpl in Hown. rewrite Hown.
  rewrite validate_frozen; [done|].
  intros [= Heq]. lia.
Qed.

Example div_before_and_after :
  getBoundingClientRect jsdom_window 4
  = Foreign (VFunction (Native "Element.prototype.getBoundingClientRect")) ∧
  getBoundingClientRect (snd (patchGeometry jsdom_window)) 4 = Normal mock_rect.
Proof. split; vm_compute; reflexivity. Qed.

(** C8, amended.  Once [patchGeometry] has completed on a window, then
    in every later state of that window in which the property installed
    on [HTMLElement.prototype] is as the patch left it, every element
    that reaches [HTMLElement.prototype] on its prototype chain before
    any object with an own [getBoundingClientRect] answers the fixed
    rectangle, whatever else is true of the element; [innerWidth] and
    [innerHeight] read 1280 and 720; and assigning any value to either
    succeeds, after which it reads as the value assigned. *)
Theorem geometry_after_patch (w w1 : Window) :
  patchGeometry w = (Normal (), w1) →
  (∀ w2 e,
     own (heap w2) (HTMLElement_prototype w1) "getBoundingClientRect"
     = own (heap w1) (HTMLElement_prototype w1) "getBoundingClientRect" →
     inherits_through (heap w2) e "getBoundingClientRect"
       (HTMLElement_prototype w1) →
     getBoundingClientRect w2 e = Normal mock_rect) ∧
  read w1 "innerWidth" = Normal (VNumber 1280) ∧
  read w1 "innerHeight" = Normal (VNumber 720) ∧
  (∀ v, ∃ w2, assign w1 "innerWidth" v = (Normal (), w2) ∧
              read w2 "innerWidth" = Normal v) ∧
  (∀ v, ∃ w2, assign w1 "innerHeight" v = (Normal (), w2) ∧
              read w2 "innerHeight" = Normal v).
Proof.
  intros Hp.
  destruct (patchGeometry_result w w1 Hp)
    as (Hwin & Htgt & Hev & (wr & en & cf & Hown & _) &
        (en1 & Hwidth) & (en2 & Hheight) & _).
  rewrite <- Hwin in Hwidth, Hheight. rewrite <- Htgt in Hown.
  split_and!.
  - intros w2 e Hsame Hin. unfold getBoundingClientRect.
    rewrite Hown in Hsame.
    by rewrite (get_inherited _ _ _ _ _ _ _ _ Hsame Hin).
  - by eapply read_own.
  - by eapply read_own.
  - intros v. by eapply assign_writable.
  - intros v. by eapply assign_writable.
Qed.

(** The theorem above on a jsdom window and its [div] element. *)
Lemma geometry_after_patch_witness :
  getBoundingClientRect (snd (patchGeometry jsdom_window)) 4 = Normal mock_rect ∧
  read (snd (patchGeometry jsdom_window)) "innerWidth" = Normal (VNumber 1280) ∧
  read (snd (patchGeometry jsdom_window)) "innerHeight" = Normal (VNumber 720).
Proof.
  destruct (geometry_after_patch jsdom_window (snd (patchGeometry jsdom_window)))
    as (Hrect & Hwidth & Hheight & _).
  - vm_compute. reflexivity.
  - split_and!; [|exact Hwidth|exact Hheight].
    apply Hrect; [reflexivity|].
    exists (mkObject ∅ true [2; 1]%nat), [4%nat], [1%nat].
    split_and!; [vm_compute; reflexivity|reflexivity|].
    constructor; [vm_compute; reflexivity|constructor].
Defined.

(** C8 as stated fails: after the patch, an [svg] element of a jsdom
    window, whose prototype chain does not go through
    [HTMLElement.prototype], still runs the method of the host. *)
Lemma svg_element_is_not_patched :
  ∃ w1, patchGeometry jsdom_window = (Normal (), w1) ∧
    heap w1 !! 5%nat = Some (mkObject ∅ true [3; 1]%nat) ∧
    getBoundingClientRect w1 5 =
      Foreign (VFunction (Native "Element.prototype.getBoundingClientRect")) ∧
    getBoundingClientRect w1 5 ≠ Normal mock_rect.
Proof.
  eexists. split_and!; [vm_compute; reflexivity|vm_compute; reflexivity
                       |vm_compute; reflexivity|].
  vm_compute. discriminate.
Qed.

(** ** When the patch is accepted, and what it leaves alone *)

Lemma method_accepted ext cur f :
  is_Some (ValidateAndApplyPropertyDescriptor ext (method_desc f) cur) ↔
  match cur with
  | None => ext
  | Some (Data v wr _ cf) => cf || wr || bool_decide (v = f)
  | Some (Accessor _ _ _ cf) => cf
  end = true.
Proof.
  unfold ValidateAndApplyPropertyDescriptor, method_desc, differs.
  destruct cur as [[v wr e cf|g st e cf]|]; simpl.
  - destruct cf, wr; simpl; try (split; [done|by eexists]).
    destruct (decide (v = f)) as [->|Hne].
    + rewrite !bool_decide_eq_true_2 by done. simpl. split; [done|by eexists].
    + rewrite !bool_decide_eq_false_2 by done. simpl.
      split; [by intros [??]|done].
  - destruct cf; simpl; [split; [done|by eexists]|].
    split; [by intros [??]|done].
  - destruct ext; simpl; [split; [done|by eexists]|].
    split; [by intros [??]|done].
Qed.

Lemma method_result ext cur f pr :
  ValidateAndApplyPropertyDescriptor ext (method_desc f) cur = Some pr →
  pr = match cur with
       | None => Data f false false false
       | Some (Data _ wr e cf) => Data f wr e cf
       | Some (Accessor _ _ e cf) => Data f false e cf
       end.
Proof.
  unfold ValidateAndApplyPropertyDescriptor, method_desc.
  destruct cur as [[v wr e cf|g st e cf]|]; simpl.
  - destruct (negb cf && _); [done|]. by intros [= <-].
  - destruct (negb cf && _); [done|]. by intros [= <-].
  - destruct ext; simpl; [|done]. by intros [= <-].
Qed.

Lemma size_accepted ext cur n :
  is_Some (ValidateAndApplyPropertyDescriptor ext (size_desc n) cur) ↔
  match cur with None => ext | Some pr => prop_configurable pr end = true.
Proof.
  unfold ValidateAndApplyPropertyDescriptor, size_desc.
  destruct cur as [[v wr e cf|g st e cf]|]; simpl.
  - destruct cf; simpl; [split; [done|by eexists]|].
    split; [by intros [??]|done].
  - destruct cf; simpl; [split; [done|by eexists]|].
    split; [by intros [??]|done].
  - destruct ext; simpl; [split; [done|by eexists]|].
    split; [by intros [??]|done].
Qed.

(** A definition is accepted or throws, and that depends on the slot
    only. *)
Lemma define_spec O P d w :
  IsAccessorDescriptor d && IsDataDescriptor d = false →
  match slot (heap w) O P with
  | Some (ext, cur) =>
      match ValidateAndApplyPropertyDescriptor ext d cur with
      | Some pr =>
          ∃ o, heap w !! O = Some o ∧
            define O P d w =
            (Normal (), with_heap w (<[O := with_prop o P pr]> (heap w)))
      | None =>
          define O P d w = (Throw (TypeError ("Cannot redefine property: " +:+ P)), w)
      end
  | None => ∃ e, define O P d w = (Throw e, w)
  end.
Proof.
  intros Hmix. unfold slot, define, defineProperty.
  destruct (heap w !! O) as [o|] eqn:HO; simpl; [|by eexists].
  rewrite Hmix.
  destruct (ValidateAndApplyPropertyDescriptor _ _ _) as [pr|]; [|done].
  by exists o.
Qed.

Lemma define_fst O P d w :
  IsAccessorDescriptor d && IsDataDescriptor d = false →
  fst (define O P d w) = Normal () ↔
  ∃ ext cur, slot (heap w) O P = Some (ext, cur) ∧
    is_Some (ValidateAndApplyPropertyDescriptor ext d cur).
Proof.
  intros Hmix. pose proof (define_spec O P d w Hmix) as Hs.
  destruct (slot (heap w) O P) as [[ext cur]|].
  - destruct (ValidateAndApplyPropertyDescriptor ext d cur) as [pr|] eqn:Hv.
    + destruct Hs as (o & _ & ->). simpl. split; [|done].
      intros _. exists ext, cur. rewrite Hv. by split; [|eexists].
    + rewrite Hs. simpl. split; [done|].
      intros (? & ? & [= <- <-] & [? Hx]). congruence.
  - destruct Hs as [e ->]. simpl. split; [done|]. by intros (? & ? & ? & _).
Qed.

Lemma slot_insert_key h O o P pr O' P' :
  h !! O = Some o → P ≠ P' →
  slot (<[O := with_prop o P pr]> h) O' P' = slot h O' P'.
Proof.
  intros HO Hne. unfold slot.
  destruct (decide (O' = O)) as [->|HO'].
  - rewrite lookup_insert_eq, HO. simpl. by rewrite lookup_insert_ne.
  - by rewrite lookup_insert_ne.
Qed.

(** Whatever its outcome, a definition leaves every other slot alone. *)
Lemma define_slot O P d w O' P' :
  P ≠ P' → slot (heap (snd (define O P d w))) O' P' = slot (heap w) O' P'.
Proof.
  intros Hne. unfold define, defineProperty.
  destruct (heap w !! O) as [o|] eqn:HO; [|done].
  destruct (_ && _); [done|].
  destruct (ValidateAndApplyPropertyDescriptor _ _ _) as [pr|]; [|done].
  simpl. by apply slot_insert_key.
Qed.

Lemma define_fields O P d w :
  window_object (snd (define O P d w)) = window_object w ∧
  HTMLElement_prototype (snd (define O P d w)) = HTMLElement_prototype w ∧
  evaluations (snd (define O P d w)) = evaluations w.
Proof.
  unfold define. by destruct (defineProperty O P d (heap w)).
Qed.

Lemma andThen_fst c k w :
  fst (andThen c k w) = Normal () ↔
  fst (c w) = Normal () ∧ fst (k (snd (c w))) = Normal ().
Proof.
  unfold andThen. destruct (c w) as [[[]|e|f] w']; simpl;
    [tauto|split; [done|by intros [? _]]..].
Qed.

Lemma andThen_snd c k w :
  snd (andThen c k w) = snd (k (snd (c w))) ∨ snd (andThen c k w) = snd (c w).
Proof.
  unfold andThen. destruct (c w) as [[[]|e|f] w']; simpl;
    [by left|by right|by right].
Qed.

Lemma patchGeometry_fst (w : Window) :
  fst (patchGeometry w) = Normal () ↔
  (∃ ext cur,
     slot (heap w) (HTMLElement_prototype w) "getBoundingClientRect"
     = Some (ext, cur) ∧
     is_Some (ValidateAndApplyPropertyDescriptor ext
                (method_desc (VFunction (MockRect (evaluations w)))) cur)) ∧
  (∃ ext cur,
     slot (heap w) (window_object w) "innerWidth" = Some (ext, cur) ∧
     is_Some (ValidateAndApplyPropertyDescriptor ext (size_desc 1280) cur)) ∧
  (∃ ext cur,
     slot (heap w) (window_object w) "innerHeight" = Some (ext, cur) ∧
     is_Some (ValidateAndApplyPropertyDescriptor ext (size_desc 720) cur)).
Proof.
  unfold patchGeometry. simpl.
  rewrite !andThen_fst, !define_fst by done.
  pose proof (define_fields (HTMLElement_prototype w) "getBoundingClientRect"
    (mkDesc (Some (VFunction (MockRect (evaluations w)))) None None None None None)
    (snd (new_method w))) as (Hwin1 & _ & _).
  rewrite !(define_slot (window_object w) "innerWidth") by done.
  rewrite !(define_slot (HTMLElement_prototype w) "getBoundingClientRect")
    by done.
  done.
Qed.

Lemma method_slot_iff (w : Window) :
  (∃ ext cur,
     slot (heap w) (HTMLElement_prototype w) "getBoundingClientRect"
     = Some (ext, cur) ∧
     is_Some (ValidateAndApplyPropertyDescriptor ext
                (method_desc (VFunction (MockRect (evaluations w)))) cur)) ↔
  method_definable w = true.
Proof.
  unfold method_definable.
  destruct (slot (heap w) (HTMLElement_prototype w) _) as [[ext cur]|].
  - rewrite <- (method_accepted ext cur). split.
    + by intros (? & ? & [= <- <-] & ?).
    + intros ?. by exists ext, cur.
  - split; [by intros (? & ? & ? & _)|done].
Qed.

Lemma size_slot_iff (w : Window) (P : string) (n : Z) :
  (∃ ext cur,
     slot (heap w) (window_object w) P = Some (ext, cur) ∧
     is_Some (ValidateAndApplyPropertyDescriptor ext (size_desc n) cur)) ↔
  size_definable w P = true.
Proof.
  unfold size_definable.
  destruct (slot (heap w) (window_object w) P) as [[ext cur]|].
  - rewrite <- (size_accepted ext cur n). split.
    + by intros (? & ? & [= <- <-] & ?).
    + intros ?. by exists ext, cur.
  - split; [by intros (? & ? & ? & _)|done].
Qed.

(** X8.  [patchGeometry] completes normally exactly when each of its
    three definitions is accepted: [HTMLElement.prototype] is an object
    that either is extensible and has no own [getBoundingClientRect], or
    has one that is configurable or a writable data property; and the
    window is an object on which [innerWidth] and [innerHeight] are each
    either absent (the window being extensible) or configurable.
    Otherwise it throws. *)
Theorem patchGeometry_completes_iff (w : Window) :
  fst (patchGeometry w) = Normal () ↔
  method_definable w = true ∧
  size_definable w "innerWidth" = true ∧
  size_definable w "innerHeight" = true.
Proof.
  rewrite patchGeometry_fst.
  simpl. unfold method_definable, size_definable.
  split.
  - intros ((e1 & c1 & Hs1 & Ha1) & (e2 & c2 & Hs2 & Ha2) &
            (e3 & c3 & Hs3 & Ha3)).
    rewrite Hs1, Hs2, Hs3.
    apply method_accepted in Ha1. apply size_accepted in Ha2, Ha3. done.
  - intros (H1 & H2 & H3). split_and!.
    + destruct (slot (heap w) (HTMLElement_prototype w) _) as [[ext cur]|];
        [|done].
      exists ext, cur. split; [done|]. by apply method_accepted.
    + destruct (slot (heap w) (window_object w) "innerWidth")
        as [[ext cur]|]; [|done].
      exists ext, cur. split; [done|]. by apply size_accepted.
    + destruct (slot (heap w) (window_object w) "innerHeight")
        as [[ext cur]|]; [|done].
      exists ext, cur. split; [done|]. by apply size_accepted.
Qed.

Lemma define_same base O P d w :
  same_but_patched base w → patched base O P →
  same_but_patched base (snd (define O P d w)).
Proof.
  intros (Hwin & Htgt & Hext & Hpro & Hown) HP.
  unfold define, defineProperty.
  destruct (heap w !! O) as [o|] eqn:HO; [|done].
  destruct (_ && _); [done|].
  destruct (ValidateAndApplyPropertyDescriptor _ _ _) as [pr|]; [|done].
  simpl. split_and!; simpl; [done|done| | |].
  - intros l. rewrite <- Hext. destruct (decide (l = O)) as [->|Hne].
    + by rewrite lookup_insert_eq, HO.
    + by rewrite lookup_insert_ne.
  - intros l. rewrite <- Hpro. destruct (decide (l = O)) as [->|Hne].
    + by rewrite lookup_insert_eq, HO.
    + by rewrite lookup_insert_ne.
  - intros l Q Hnot. rewrite <- (Hown l Q Hnot).
    destruct (decide (l = O)) as [->|Hne].
    + apply own_insert_key; [done|]. intros <-. by apply Hnot.
    + unfold own. by rewrite lookup_insert_ne.
Qed.

(** X9.  Whether it completes or throws, [patchGeometry] changes nothing
    but the three properties it defines: every object keeps its
    extensibility and its prototype chain, no object appears or
    disappears, and every other property of every object is as before. *)
Theorem patchGeometry_touches_three_properties (w : Window) :
  same_but_patched w (snd (patchGeometry w)).
Proof.
  assert (same_but_patched w (snd (new_method w))) as H0
    by (by split_and!).
  assert (patched w (HTMLElement_prototype w) "getBoundingClientRect") as P1
    by (by left).
  assert (patched w (window_object w) "innerWidth") as P2
    by (right; by left).
  assert (patched w (window_object w) "innerHeight") as P3
    by (right; by right).
  unfold patchGeometry. simpl.
  match goal with
  | |- same_but_patched _ (snd (andThen ?c (andThen ?k1 ?k2) ?w0)) =>
      destruct (andThen_snd c (andThen k1 k2) w0) as [->| ->];
        [destruct (andThen_snd k1 k2 (snd (c w0))) as [->| ->]|]
  end.
  - by repeat apply define_same.
  - by repeat apply define_same.
  - by apply define_same.
Qed.

(** The method property after a [patchGeometry] that completed: the
    new function, with the attributes the property had before, all
    false when it was not there. *)
Lemma patchGeometry_method w w1 :
  patchGeometry w = (Normal (), w1) →
  own (heap w1) (HTMLElement_prototype w) "getBoundingClientRect" =
  Some match own (heap w) (HTMLElement_prototype w) "getBoundingClientRect" with
       | None => Data (VFunction (MockRect (evaluations w))) false false false
       | Some (Data _ wr e cf) =>
           Data (VFunction (MockRect (evaluations w))) wr e cf
       | Some (Accessor _ _ e cf) =>
           Data (VFunction (MockRect (evaluations w))) false e cf
       end.
Proof.
  intros Hp. apply patchGeometry_steps in Hp as (wa & wb & Ha & Hb & Hc).
  apply define_Normal in Ha as (oa & pa & HOa & Hva & ->).
  apply define_Normal in Hb as (ob & pb & HOb & Hvb & ->).
  apply define_Normal in Hc as (oc & pc & HOc & Hvc & ->).
  simpl in *.
  rewrite (own_insert_key _ _ _ _ _ _ _ HOc) by done.
  rewrite (own_insert_key _ _ _ _ _ _ _ HOb) by done.
  rewrite own_insert_eq. f_equal.
  rewrite (own_lookup _ _ _ _ HOa).
  by apply (method_result _ _ _ _ Hva).
Qed.

(** X10.  After a [patchGeometry] that completed, a second one
    completes exactly when the method was there before the first, as a
    configurable property or a writable data property.  Otherwise, and
    so whenever the first application created the property, the second
    one throws the TypeError of a refused redefinition and leaves the
    objects of the window as they were. *)
Theorem patchGeometry_again_iff (w w1 : Window) :
  patchGeometry w = (Normal (), w1) →
  (fst (patchGeometry w1) = Normal () ↔ repeatable w = true) ∧
  (repeatable w = false →
   patchGeometry w1 =
   (Throw (TypeError "Cannot redefine property: getBoundingClientRect"),
    snd (new_method w1))).
Proof.
  intros Hp.
  pose proof (patchGeometry_method w w1 Hp) as Hm.
  destruct (patchGeometry_result w w1 Hp)
    as (Hwin & Htgt & Hev & _ & (en1 & Hwidth) & (en2 & Hheight) & _).
  assert (Hsize : ∀ P v en,
            own (heap w1) (window_object w) P = Some (Data v true en true) →
            size_definable w1 P = true).
  { intros P v en Ho. unfold size_definable, slot. rewrite Hwin.
    unfold own in Ho.
    destruct (heap w1 !! window_object w) as [o|]; [|done].
    simpl in *. by rewrite Ho. }
  assert (Hmeth : method_definable w1 = repeatable w).
  { unfold method_definable, repeatable, slot. rewrite Htgt, Hev.
    unfold own in Hm |- *.
    destruct (heap w1 !! HTMLElement_prototype w) as [o1|]; [|done].
    simpl in *. rewrite Hm.
    destruct (heap w !! HTMLElement_prototype w ≫= _)
      as [[v wr e cf|g st e cf]|]; simpl.
    - rewrite bool_decide_eq_false_2; [by rewrite orb_false_r|].
      intros [=]. lia.
    - rewrite bool_decide_eq_false_2; [by rewrite !orb_false_r|].
      intros [=]. lia.
    - rewrite bool_decide_eq_false_2; [done|]. intros [=]. lia. }
  split.
  - rewrite patchGeometry_fst, method_slot_iff, !size_slot_iff, Hmeth.
    rewrite (Hsize _ _ _ Hwidth), (Hsize _ _ _ Hheight). tauto.
  - intros Hno. rewrite <- Hmeth in Hno.
    unfold method_definable in Hno.
    pose proof (define_spec (HTMLElement_prototype w1) "getBoundingClientRect"
                  (method_desc (VFunction (MockRect (evaluations w1))))
                  (snd (new_method w1)) eq_refl) as Hs.
    simpl in Hs.
    destruct (slot (heap w1) (HTMLElement_prototype w1) "getBoundingClientRect")
      as [[ext cur]|] eqn:Hslot.
    + destruct (ValidateAndApplyPropertyDescriptor ext _ cur) as [pr|] eqn:Hv.
      * assert (is_Some (ValidateAndApplyPropertyDescriptor ext
                  (method_desc (VFunction (MockRect (evaluations w1)))) cur))
          as Hacc by (by eexists).
        apply method_accepted in Hacc. congruence.
      * unfold patchGeometry, andThen. simpl.
        unfold method_desc in Hs. by rewrite Hs.
    + unfold slot in Hslot. rewrite Htgt in Hslot.
      unfold own in Hm.
      destruct (heap w1 !! HTMLElement_prototype w); done.
Qed.

(** The theorem above on a jsdom window, where the second application
    throws, and on a window with a stub, where it completes. *)
Lemma patchGeometry_again_iff_witness :
  patchGeometry (snd (patchGeometry jsdom_window)) =
    (Throw (TypeError "Cannot redefine property: getBoundingClientRect"),
     snd (new_method (snd (patchGeometry jsdom_window)))) ∧
  fst (patchGeometry (snd (patchGeometry stubbed_window))) = Normal ().
Proof.
  split.
  - destruct (patchGeometry_again_iff jsdom_window
                (snd (patchGeometry jsdom_window))) as [_ Hthrow];
      [vm_compute; reflexivity|].
    apply Hthrow. vm_compute. reflexivity.
  - destruct (patchGeometry_again_iff stubbed_window
                (snd (patchGeometry stubbed_window))) as [Hiff _];
      [vm_compute; reflexivity|].
    apply Hiff. vm_compute. reflexivity.
Defined.

(** ** Assignments to properties of the window *)

(** An assignment that completes leaves a writable data property that
    holds the value. *)
Lemma set_Normal h O P V h' :
  set h O P V = Normal h' →
  ∃ o e c, h !! O = Some o ∧ h' = <[O := with_prop o P (Data V true e c)]> h.
Proof.
  unfold set. destruct (h !! O) as [o|] eqn:HO; [|done].
  assert (Hrecv :
    match props o !! P with
    | Some (Accessor _ _ _ _) | Some (Data _ false _ _) =>
        Throw (TypeError ("Cannot assign to property " +:+ P))
    | Some (Data _ true _ _) =>
        match ValidateAndApplyPropertyDescriptor (extensible o)
                (mkDesc (Some V) None None None None None) (props o !! P) with
        | None => Throw (TypeError ("Cannot assign to property " +:+ P))
        | Some pr => Normal (<[O := with_prop o P pr]> h)
        end
    | None =>
        match ValidateAndApplyPropertyDescriptor (extensible o)
                (mkDesc (Some V) (Some true) None None (Some true) (Some true))
                (props o !! P) with
        | None => Throw (TypeError ("Cannot assign to property " +:+ P))
        | Some pr => Normal (<[O := with_prop o P pr]> h)
        end
    end = Normal h' →
    ∃ o0 e c, Some o = Some o0 ∧
      h' = <[O := with_prop o0 P (Data V true e c)]> h).
  { destruct (props o !! P) as [[v [] e c|g st e c]|]; [|done|done|].
    - unfold ValidateAndApplyPropertyDescriptor. simpl.
      rewrite andb_false_r. simpl. intros [= <-]. by exists o, e, c.
    - unfold ValidateAndApplyPropertyDescriptor. simpl.
      destruct (extensible o); simpl; [|done].
      intros [= <-]. by exists o, true, true. }
  destruct (find_property h (O :: protos o) P)
    as [[v [] e c|g [] e c]|]; try done.
Qed.

Lemma assign_Normal w P V w' :
  assign w P V = (Normal (), w') →
  ∃ o e c, heap w !! window_object w = Some o ∧
    w' = with_heap w
           (<[window_object w := with_prop o P (Data V true e c)]> (heap w)).
Proof.
  unfold assign. destruct (set _ _ _ _) as [h'| |] eqn:Hs; [|done|done].
  intros [= <-]. apply set_Normal in Hs as (o & e & c & HO & ->).
  by exists o, e, c.
Qed.

(** What an assignment that completes leaves behind. *)
Lemma assign_result w P V w' :
  assign w P V = (Normal (), w') →
  window_object w' = window_object w ∧
  HTMLElement_prototype w' = HTMLElement_prototype w ∧
  evaluations w' = evaluations w ∧
  (∃ e c, own (heap w') (window_object w) P = Some (Data V true e c)) ∧
  (∀ l Q, P ≠ Q → own (heap w') l Q = own (heap w) l Q).
Proof.
  intros Ha. apply assign_Normal in Ha as (o & e & c & HO & ->). simpl.
  split_and!; [done|done|done| |].
  - exists e, c. apply own_insert_eq.
  - intros l Q Hne. by apply own_insert_key.
Qed.

(** Assigning once more the value that is there changes nothing. *)
Lemma assign_same_value w P V w' :
  assign w P V = (Normal (), w') → assign w' P V = (Normal (), w').
Proof.
  intros Ha. apply assign_Normal in Ha as (o & e & c & HO & ->).
  unfold assign, set. simpl. rewrite lookup_insert_eq. simpl.
  rewrite own_insert_eq. simpl. rewrite lookup_insert_eq.
  unfold ValidateAndApplyPropertyDescriptor. simpl.
  rewrite andb_false_r. simpl.
  unfold with_heap, with_prop. simpl.
  by rewrite !insert_insert_eq.
Qed.

(** The method as the first application made it refuses the next one. *)
Lemma patchGeometry_refused w n :
  own (heap w) (HTMLElement_prototype w) "getBoundingClientRect" =
    Some (Data (VFunction (MockRect n)) false false false) →
  evaluations w ≠ n →
  patchGeometry w =
    (Throw (TypeError "Cannot redefine property: getBoundingClientRect"),
     snd (new_method w)).
Proof.
  intros Hown Hne.
  unfold patchGeometry, andThen, define, defineProperty. simpl.
  unfold own in Hown.
  destruct (heap w !! HTMLElement_prototype w) as [o|]; [|done].
  simpl in Hown. rewrite Hown.
  rewrite validate_frozen; [done|]. by intros [= ?].
Qed.

End GeometryFacts.

(* ===================================================================== *)
(** * Properties of the location helpers                                  *)
(* ===================================================================== *)

Module LocationFacts.
Import JS Location.

Section Host.

(** What the host makes of [location.href = url]. *)
Variable assign_href : string → Location → completion Location.

(** Objects are only ever added. *)
Lemma act_objects a s : objects s `prefix_of` objects (act assign_href a s).
Proof.
  destruct a as [url|l| |]; simpl; try done.
  - unfold navigateTo. by destruct (assign_href url (location s)).
  - by apply prefix_app_r.
Qed.

Lemma acts_objects l s : objects s `prefix_of` objects (acts assign_href l s).
Proof.
  revert s. induction l as [|a l IH]; intros s; simpl; [done|].
  etrans; [apply (act_objects a)|apply IH].
Qed.

End Host.

(** C3, amended.  [getLocationInfo] makes a new object with nine
    properties, [href], [origin], [protocol], [host], [hostname],
    [port], [pathname], [search] and [hash], each holding what the
    location held at the call; the location is left as it was; and
    whatever is done to the location afterwards (navigation through any
    host setter, a change by the host, validation, further snapshots),
    the object keeps these nine values. *)
Theorem getLocationInfo_is_a_snapshot
    (assign_href : string → Location → completion Location)
    (s : State) (later : list action) :
  let r := fst (getLocationInfo s) in
  let s1 := snd (getLocationInfo s) in
  let l := location s in
  let fields :=
    [("href", href l); ("origin", origin l); ("protocol", protocol l);
     ("host", host l); ("hostname", hostname l); ("port", port l);
     ("pathname", pathname l); ("search", search l); ("hash", hash l)] in
  objects s1 !! r = Some fields ∧
  length fields = 9%nat ∧
  location s1 = l ∧
  objects (acts assign_href later s1) !! r = Some fields.
Proof.
  simpl.
  assert (Hr : (objects s ++ [snapshot (location s)]) !! length (objects s)
               = Some (snapshot (location s))).
  { apply lookup_snoc_Some. by right. }
  split_and!; [done|done|done|].
  eapply prefix_lookup_Some; [|apply (acts_objects assign_href)]. done.
Qed.

(** C3 as stated fails: the snapshot of a window at
    [http://localhost:3000/] has nine properties, not eight. *)
Lemma snapshot_has_nine_fields :
  let s := mkState localhost [] [] in
  length <$> objects (snd (getLocationInfo s)) !! fst (getLocationInfo s)
  = Some 9%nat ∧
  length <$> objects (snd (getLocationInfo s)) !! fst (getLocationInfo s)
  ≠ Some 8%nat.
Proof. split; [reflexivity|discriminate]. Qed.

(** C9.  [patchLocation] always completes normally and leaves the
    location (and every object) as it was.  When the full URL is
    [about:blank], [hasValidLocation] answers [false] and
    [patchLocation] prints exactly one warning; for every other URL
    [hasValidLocation] answers [true] and nothing is printed. *)
Theorem about_blank_is_reported (s : State) :
  fst (patchLocation s) = Normal () ∧
  location (snd (patchLocation s)) = location s ∧
  objects (snd (patchLocation s)) = objects s ∧
  if decide (href (location s) = "about:blank")
  then hasValidLocation s = false ∧
       console (snd (patchLocation s)) = console s ++ [warning]
  else hasValidLocation s = true ∧
       console (snd (patchLocation s)) = console s.
Proof.
  split_and!; [done|done|done|].
  unfold hasValidLocation, patchLocation, warnings. simpl.
  destruct (decide (href (location s) = "about:blank")) as [He|He].
  - by rewrite bool_decide_eq_true_2 by done.
  - rewrite bool_decide_eq_false_2 by done. by rewrite app_nil_r.
Qed.

Section HostNavigation.

Variable assign_href : string → Location → completion Location.

(** X11.  [navigateTo] adds nothing to what the host's setter does.
    When the setter accepts the URL, a snapshot taken afterwards is a
    new object holding the nine fields of the location the setter
    produced, a snapshot taken before still holds the old fields, and
    [hasValidLocation] judges the new URL.  When the setter throws,
    [navigateTo] throws the same error and changes nothing. *)
Theorem navigateTo_then_snapshot (url : string) (s : State) :
  let r0 := fst (getLocationInfo s) in
  let s0 := snd (getLocationInfo s) in
  match assign_href url (location s) with
  | Normal l' =>
      ∃ s1, navigateTo assign_href url s0 = (Normal (), s1) ∧
        let r1 := fst (getLocationInfo s1) in
        let s2 := snd (getLocationInfo s1) in
        r1 ≠ r0 ∧
        objects s2 !! r1 = Some (snapshot l') ∧
        objects s2 !! r0 = Some (snapshot (location s)) ∧
        hasValidLocation s1 = negb (bool_decide (href l' = "about:blank")) ∧
        console s2 = console s
  | Throw e => navigateTo assign_href url s0 = (Throw e, s0)
  | Foreign f => navigateTo assign_href url s0 = (Foreign f, s0)
  end.
Proof.
  simpl. unfold navigateTo. simpl.
  destruct (assign_href url (location s)) as [l'|e|f]; [|done|done].
  eexists. split; [reflexivity|]. simpl.
  rewrite length_app. simpl. split_and!; [lia| | |done|done].
  - apply lookup_snoc_Some. right. by rewrite length_app.
  - rewrite lookup_app_l by (rewrite length_app; simpl; lia).
    apply lookup_snoc_Some. by right.
Qed.

(** X12.  [patchLocation] warns every time it runs: after [n]
    applications on a window left at [about:blank] the console holds [n]
    more copies of the warning, and on any other window it holds what it
    held; the location is never touched. *)
Theorem patchLocation_warns_each_time (n : nat) (s : State) :
  let s' := acts assign_href (replicate n Validate) s in
  location s' = location s ∧ objects s' = objects s ∧
  console s' =
  console s ++
  (if decide (href (location s) = "about:blank")
   then replicate n warning else []).
Proof.
  simpl. revert s. induction n as [|n IH]; intros s; simpl.
  - split_and!; [done|done|]. by destruct (decide _); rewrite app_nil_r.
  - destruct (IH (snd (patchLocation s))) as (Hl & Ho & Hc).
    unfold acts in *. simpl in *.
    rewrite Hl, Ho, Hc. split_and!; [done|done|].
    unfold warnings.
    destruct (decide (href (location s) = "about:blank")) as [He|He].
    + rewrite bool_decide_eq_true_2 by done. by rewrite <- app_assoc.
    + rewrite bool_decide_eq_false_2 by done. by rewrite !app_nil_r.
Qed.

End HostNavigation.

End LocationFacts.

(* ===================================================================== *)
(** * Properties of the resize-observer mock                              *)
(* ===================================================================== *)

Module ResizeObserverFacts.
Import ResizeObserver.

Lemma invoke_calls m s :
  calls (invoke m s) = calls s ++ option_list (expected m) ∧
  queued (invoke m s) = queued s.
Proof. destruct m; simpl; by rewrite ?app_nil_r. Qed.

(** C7.  For every instance and element, [observe] has, when it
    returns, made one more call, of the callback of the instance, with
    the one-entry sequence [{ target: el, contentRect: { width: 100,
    height: 100 } }], and has left nothing to be called later;
    [disconnect] and [unobserve] leave the state as it is; so over any
    sequence of method calls, the callbacks are called once per
    [observe], in order, and never otherwise. *)
Theorem observe_calls_back_once (ms : list method) (s : State) :
  (∀ this el,
     calls (observe this el s) =
       calls s ++ [mkCall (cb this)
                     [mkEntry el [("width", 100); ("height", 100)]] this] ∧
     queued (observe this el s) = queued s) ∧
  (∀ this, disconnect this s = s ∧ unobserve this s = s) ∧
  calls (invoke_all ms s) = calls s ++ omap expected ms ∧
  queued (invoke_all ms s) = queued s.
Proof.
  split_and!; [done|done| |].
  - unfold invoke_all. revert s. induction ms as [|m ms IH]; intros s; simpl.
    + by rewrite app_nil_r.
    + rewrite IH. destruct (invoke_calls m s) as [-> _].
      rewrite <- app_assoc. by destruct (expected m).
  - unfold invoke_all. revert s. induction ms as [|m ms IH]; intros s; simpl.
    + done.
    + rewrite IH. by destruct (invoke_calls m s) as [_ ->].
Qed.

(** C10.  The constructor stores the callback and calls nothing; each
    later [observe] on the instance calls that callback, with the
    instance itself as second argument. *)
Theorem constructor_only_stores (c : nat) (s : State) :
  let this := fst (construct c s) in
  let s1 := snd (construct c s) in
  cb this = c ∧ calls s1 = calls s ∧
  ∀ el s2, ∃ call,
    calls (observe this el s2) = calls s2 ++ [call] ∧
    callee call = c ∧ observer call = this.
Proof.
  simpl. split_and!; [done|done|].
  intros el s2. eexists. split; [reflexivity|done].
Qed.

End ResizeObserverFacts.

(* ===================================================================== *)
(** * Applying the patches more than once                                 *)
(* ===================================================================== *)

Module SetupFacts.
Import JS Setup.

(** C2 (what the code does instead).  On a jsdom window, where
    [HTMLElement.prototype] has no [getBoundingClientRect] of its own,
    the first [patchGeometry] defines the method with a bare
    [{ value }], hence read-only and not configurable; the second
    [patchGeometry] offers a new function object and throws.  So does
    [applyJsdomExtended] applied again to the same window, in both of
    its versions, since it starts with [patchGeometry]. *)
Theorem second_application_throws :
  (∃ w1,
     Geometry.patchGeometry Geometry.jsdom_window = (Normal (), w1) ∧
     own (Geometry.heap w1) 2 "getBoundingClientRect"
     = Some (Data (VFunction (MockRect 0)) false false false) ∧
     fst (Geometry.patchGeometry w1)
     = Throw (TypeError "Cannot redefine property: getBoundingClientRect")) ∧
  (∃ W1,
     applyJsdomExtended 1 two_windows = (Normal (), W1) ∧
     fst (applyJsdomExtended 1 W1)
     = Throw (TypeError "Cannot redefine property: getBoundingClientRect") ∧
     fst (applyJsdomExtended_without_location 1 W1)
     = Throw (TypeError "Cannot redefine property: getBoundingClientRect")).
Proof.
  split.
  - eexists. split_and!; vm_compute; reflexivity.
  - eexists. split_and!; vm_compute; reflexivity.
Qed.

(** C1 (what the code does instead).  [applyJsdomExtended] on two
    windows makes two installations with a counter each and the one
    module-level table.  Each then schedules one callback: both calls
    return handle 1, and the second call replaces the entry of the
    first installation.  Cancelling handle 1 through the first
    installation disarms the timer of the second: the callback that was
    cancelled still runs, and the other one never does. *)
Theorem installations_share_the_table :
  ∃ W1 W2 s s',
    applyJsdomExtended 1 two_windows = (Normal (), W1) ∧
    applyJsdomExtended 2 W1 = (Normal (), W2) ∧
    raf W2 = snd (Raf.patchRAF 2 (snd (Raf.patchRAF 1 Raf.init))) ∧
    Raf.run [Raf.ERequest 0 7; Raf.ERequest 1 8]%nat (raf W2) = Some s ∧
    Raf.history s = [Raf.ORequest 0 7 1 0; Raf.ORequest 1 8 1 1]%nat ∧
    Raf.rafHandles s = {[ 1 := 1%nat ]} ∧
    Raf.cancelAnimationFrame 0 1 s = Some s' ∧
    Raf.timers s' = {[ 0%nat := Raf.mkTask 1 7 1 ]} ∧
    Raf.history (Raf.fire 1 33 (Raf.fire 0 32 s')) =
      [Raf.ORequest 0 7 1 0; Raf.ORequest 1 8 1 1; Raf.OCancel 0 1;
       Raf.OInvoke 0 7 32]%nat.
Proof.
  eexists _, _, _, _. split_and!; vm_compute; reflexivity.
Qed.

(** ** The patches on the windows of a process *)

Lemma andThen_Normal c k W W' :
  andThen c k W = (Normal (), W') →
  ∃ W1, c W = (Normal (), W1) ∧ k W1 = (Normal (), W').
Proof.
  unfold andThen. destruct (c W) as [[[]|e|f] W1]; [|done|done].
  intros Hk. by exists W1.
Qed.

Lemma on_window_Normal win f W W' :
  on_window win f W = (Normal (), W') →
  ∃ w w', windows W !! win = Some w ∧ f w = (Normal (), w') ∧
    W' = mkWorld (<[win := w']> (windows W)) (locations W) (raf W) (console W).
Proof.
  unfold on_window. destruct (windows W !! win) as [w|]; [|done].
  destruct (f w) as [r w'] eqn:Hf. intros [= -> <-]. by exists w, w'.
Qed.

Lemma patchRAF_Normal win W W' :
  patchRAF win W = (Normal (), W') →
  ∃ w wa wb,
    windows W !! win = Some w ∧
    Geometry.assign w "requestAnimationFrame"
      (VFunction (RafRequest (length (Raf.closures (raf W))))) = (Normal (), wa) ∧
    Geometry.assign wa "cancelAnimationFrame"
      (VFunction (RafCancel (length (Raf.closures (raf W))))) = (Normal (), wb) ∧
    W' = mkWorld (<[win := wb]> (windows W)) (locations W)
           (snd (Raf.patchRAF win (raf W))) (console W).
Proof.
  unfold patchRAF. simpl. intros Hp.
  apply andThen_Normal in Hp as (Wa & Ha & Hb).
  apply on_window_Normal in Ha as (w & wa & Hw & Hfa & ->).
  apply on_window_Normal in Hb as (wa' & wb & Hwa & Hfb & ->).
  simpl in *. rewrite lookup_insert_eq in Hwa. injection Hwa as <-.
  exists w, wa, wb. split_and!; [done|done|done|].
  by rewrite insert_insert_eq.
Qed.

(** The two assignments of [patchRAF] go through on a window where they
    went through before. *)
Lemma assign_raf_again w wa wb V1 V2 V1' V2' :
  Geometry.assign w "requestAnimationFrame" V1 = (Normal (), wa) →
  Geometry.assign wa "cancelAnimationFrame" V2 = (Normal (), wb) →
  ∃ wc wd,
    Geometry.assign wb "requestAnimationFrame" V1' = (Normal (), wc) ∧
    Geometry.assign wc "cancelAnimationFrame" V2' = (Normal (), wd) ∧
    Geometry.read wd "requestAnimationFrame" = Normal V1' ∧
    Geometry.read wd "cancelAnimationFrame" = Normal V2'.
Proof.
  intros Ha Hb.
  destruct (GeometryFacts.assign_result _ _ _ _ Ha)
    as (Hwa & _ & _ & (e1 & c1 & Ho1) & _).
  destruct (GeometryFacts.assign_result _ _ _ _ Hb)
    as (Hwb & _ & _ & (e2 & c2 & Ho2) & Hf2).
  rewrite <- Hwa in Ho1. rewrite <- Hwb in Ho1, Ho2.
  rewrite <- (Hf2 _ "requestAnimationFrame") in Ho1 by done.
  destruct (GeometryFacts.assign_writable wb _ _ _ _ V1' Ho1)
    as (wc & Hc & _).
  destruct (GeometryFacts.assign_result _ _ _ _ Hc)
    as (Hwc & _ & _ & (e3 & c3 & Ho3) & Hf3).
  rewrite <- (Hf3 _ "cancelAnimationFrame") in Ho2 by done.
  rewrite <- Hwc in Ho2, Ho3.
  destruct (GeometryFacts.assign_writable wc _ _ _ _ V2' Ho2)
    as (wd & Hd & Hrd).
  destruct (GeometryFacts.assign_result _ _ _ _ Hd)
    as (Hwd & _ & _ & _ & Hf4).
  rewrite <- (Hf4 _ "requestAnimationFrame") in Ho3 by done.
  rewrite <- Hwd in Ho3.
  exists wc, wd. split_and!; [done|done| |done].
  by eapply GeometryFacts.read_own.
Qed.

(** X13.  When [patchRAF] completes on a window, the window's
    [requestAnimationFrame] and [cancelAnimationFrame] are the two
    functions of one new installation, whose counter starts at 0.
    Applying it again to the same window completes as well: the window
    then holds the functions of yet another installation with a counter
    of its own at 0, while the handle table and the armed timers are
    the ones that were there, pending frames included. *)
Theorem patchRAF_installs_and_repeats (win : nat) (W W1 : World) :
  patchRAF win W = (Normal (), W1) →
  let k := length (Raf.closures (raf W)) in
  raf W1 = snd (Raf.patchRAF win (raf W)) ∧
  (∃ w1, windows W1 !! win = Some w1 ∧
     Geometry.read w1 "requestAnimationFrame"
       = Normal (VFunction (RafRequest k)) ∧
     Geometry.read w1 "cancelAnimationFrame"
       = Normal (VFunction (RafCancel k))) ∧
  ∃ W2 w2,
    patchRAF win W1 = (Normal (), W2) ∧ windows W2 !! win = Some w2 ∧
    Geometry.read w2 "requestAnimationFrame"
      = Normal (VFunction (RafRequest (S k))) ∧
    Geometry.read w2 "cancelAnimationFrame"
      = Normal (VFunction (RafCancel (S k))) ∧
    Raf.closures (raf W2) =
      Raf.closures (raf W) ++ [Raf.mkClosure 0 win; Raf.mkClosure 0 win] ∧
    Raf.rafHandles (raf W2) = Raf.rafHandles (raf W) ∧
    Raf.timers (raf W2) = Raf.timers (raf W).
Proof.
  intros Hp. simpl.
  apply patchRAF_Normal in Hp as (w & wa & wb & Hw & Ha & Hb & ->). simpl.
  split_and!; [done| |].
  - exists wb. rewrite lookup_insert_eq. split; [done|].
    destruct (GeometryFacts.assign_result _ _ _ _ Ha)
      as (Hwa & _ & _ & (e1 & c1 & Ho1) & _).
    destruct (GeometryFacts.assign_result _ _ _ _ Hb)
      as (Hwb & _ & _ & (e2 & c2 & Ho2) & Hf2).
    rewrite <- Hwa in Ho1. rewrite <- Hwb in Ho1, Ho2.
    rewrite <- (Hf2 _ "requestAnimationFrame") in Ho1 by done.
    split; by eapply GeometryFacts.read_own.
  - destruct (assign_raf_again w wa wb _ _
                (VFunction (RafRequest (S (length (Raf.closures (raf W))))))
                (VFunction (RafCancel (S (length (Raf.closures (raf W))))))
                Ha Hb) as (wc & wd & Hc & Hd & Hr1 & Hr2).
    eexists _, wd. split_and!; [| |exact Hr1|exact Hr2| | |].
    + unfold patchRAF, andThen, on_window. simpl.
      rewrite lookup_insert_eq, length_app. simpl.
      replace (length (Raf.closures (raf W)) + 1)%nat
        with (S (length (Raf.closures (raf W)))) by lia.
      rewrite Hc. simpl. rewrite lookup_insert_eq, Hd. reflexivity.
    + simpl. apply lookup_insert_eq.
    + simpl. by rewrite <- app_assoc.
    + done.
    + done.
Qed.

Lemma patchRAF_installs_and_repeats_witness :
  ∃ W1 W2,
    patchRAF 1 two_windows = (Normal (), W1) ∧
    patchRAF 1 W1 = (Normal (), W2) ∧
    Raf.closures (raf W2) = [Raf.mkClosure 0 1; Raf.mkClosure 0 1].
Proof.
  destruct (patchRAF_installs_and_repeats 1 two_windows
              (snd (patchRAF 1 two_windows)))
    as (_ & _ & W2 & w2 & Hagain & _ & _ & _ & Hcl & _);
    [vm_compute; reflexivity|].
  exists (snd (patchRAF 1 two_windows)), W2.
  split_and!; [vm_compute; reflexivity|exact Hagain|exact Hcl].
Defined.

(** X14.  [patchResizeObserver] is idempotent: once it has completed on
    a window, which then holds the class, applying it again completes
    and leaves the whole process exactly as it was. *)
Theorem patchResizeObserver_is_idempotent (win : nat) (W W1 : World) :
  patchResizeObserver win W = (Normal (), W1) →
  patchResizeObserver win W1 = (Normal (), W1) ∧
  ∃ w1, windows W1 !! win = Some w1 ∧
    Geometry.read w1 "ResizeObserver"
      = Normal (VFunction FakeResizeObserverClass).
Proof.
  intros Hp. unfold patchResizeObserver in *.
  apply on_window_Normal in Hp as (w & w1 & Hw & Ha & ->).
  split.
  - unfold on_window. simpl. rewrite lookup_insert_eq.
    rewrite (GeometryFacts.assign_same_value _ _ _ _ Ha).
    by rewrite insert_insert_eq.
  - exists w1. simpl. rewrite lookup_insert_eq. split; [done|].
    destruct (GeometryFacts.assign_result _ _ _ _ Ha)
      as (Hw1 & _ & _ & (e & c & Ho) & _).
    rewrite <- Hw1 in Ho. by eapply GeometryFacts.read_own.
Qed.

Lemma patchResizeObserver_is_idempotent_witness :
  patchResizeObserver 2 (snd (patchResizeObserver 2 two_windows))
  = (Normal (), snd (patchResizeObserver 2 two_windows)).
Proof.
  apply (patchResizeObserver_is_idempotent 2 two_windows).
  vm_compute. reflexivity.
Defined.

(** The steps of an [applyJsdomExtended] that completes. *)
Lemma applyJsdomExtended_Normal win W W4 :
  applyJsdomExtended win W = (Normal (), W4) →
  ∃ w w1 wa wb w3 l,
    windows W !! win = Some w ∧ locations W !! win = Some l ∧
    Geometry.patchGeometry w = (Normal (), w1) ∧
    Geometry.assign w1 "requestAnimationFrame"
      (VFunction (RafRequest (length (Raf.closures (raf W))))) = (Normal (), wa) ∧
    Geometry.assign wa "cancelAnimationFrame"
      (VFunction (RafCancel (length (Raf.closures (raf W))))) = (Normal (), wb) ∧
    Geometry.assign wb "ResizeObserver" (VFunction FakeResizeObserverClass)
      = (Normal (), w3) ∧
    W4 = mkWorld (<[win := w3]> (windows W)) (locations W)
           (snd (Raf.patchRAF win (raf W)))
           (console W ++ Location.warnings l).
Proof.
  unfold applyJsdomExtended. intros Hp.
  apply andThen_Normal in Hp as (W1 & Hg & Hp).
  apply andThen_Normal in Hp as (W2 & Hr & Hp).
  apply andThen_Normal in Hp as (W3 & Ho & Hl).
  apply on_window_Normal in Hg as (w & w1 & Hw & Hg & ->).
  apply patchRAF_Normal in Hr as (w1' & wa & wb & Hw1 & Ha & Hb & ->).
  simpl in *. rewrite lookup_insert_eq in Hw1. injection Hw1 as <-.
  apply on_window_Normal in Ho as (wb' & w3 & Hwb & Ho & ->).
  simpl in *. rewrite lookup_insert_eq in Hwb. injection Hwb as <-.
  unfold patchLocation in Hl. simpl in Hl.
  destruct (locations W !! win) as [l|] eqn:Hloc; [|done].
  injection Hl as <-.
  exists w, w1, wa, wb, w3, l. split_and!; try done.
  by rewrite !insert_insert_eq.
Qed.

(** What the window holds after the four patches. *)
Lemma patched_window w w1 wa wb w3 V1 V2 V3 :
  Geometry.patchGeometry w = (Normal (), w1) →
  Geometry.assign w1 "requestAnimationFrame" V1 = (Normal (), wa) →
  Geometry.assign wa "cancelAnimationFrame" V2 = (Normal (), wb) →
  Geometry.assign wb "ResizeObserver" V3 = (Normal (), w3) →
  Geometry.window_object w3 = Geometry.window_object w ∧
  Geometry.HTMLElement_prototype w3 = Geometry.HTMLElement_prototype w ∧
  Geometry.evaluations w3 = S (Geometry.evaluations w) ∧
  own (Geometry.heap w3) (Geometry.HTMLElement_prototype w)
      "getBoundingClientRect"
  = own (Geometry.heap w1) (Geometry.HTMLElement_prototype w)
      "getBoundingClientRect" ∧
  Geometry.read w3 "innerWidth" = Normal (VNumber 1280) ∧
  Geometry.read w3 "innerHeight" = Normal (VNumber 720) ∧
  Geometry.read w3 "requestAnimationFrame" = Normal V1 ∧
  Geometry.read w3 "cancelAnimationFrame" = Normal V2 ∧
  Geometry.read w3 "ResizeObserver" = Normal V3.
Proof.
  intros Hg Ha Hb Ho.
  destruct (GeometryFacts.patchGeometry_result w w1 Hg)
    as (Hwin & Htgt & Hev & _ & (en1 & Hwidth) & (en2 & Hheight) & _).
  destruct (GeometryFacts.assign_result _ _ _ _ Ha)
    as (Hwa & Hta & Hea & (e1 & c1 & Ho1) & Hf1).
  destruct (GeometryFacts.assign_result _ _ _ _ Hb)
    as (Hwb & Htb & Heb & (e2 & c2 & Ho2) & Hf2).
  destruct (GeometryFacts.assign_result _ _ _ _ Ho)
    as (Hw3 & Ht3 & He3 & (e3 & c3 & Ho3) & Hf3).
  assert (Geometry.window_object w3 = Geometry.window_object w) as Hwo
    by congruence.
  rewrite Hwa, Hwin in Ho2. rewrite Hwb, Hwa, Hwin in Ho3.
  rewrite Hwin in Ho1.
  split_and!; [done|congruence|congruence| | | | | |].
  - rewrite Hf3, Hf2, Hf1 by done. done.
  - eapply GeometryFacts.read_own. rewrite Hwo.
    rewrite Hf3, Hf2, Hf1 by done. done.
  - eapply GeometryFacts.read_own. rewrite Hwo.
    rewrite Hf3, Hf2, Hf1 by done. done.
  - eapply GeometryFacts.read_own. rewrite Hwo.
    rewrite Hf3, Hf2 by done. done.
  - eapply GeometryFacts.read_own. rewrite Hwo.
    rewrite Hf3 by done. done.
  - eapply GeometryFacts.read_own. rewrite Hwo. done.
Qed.

(** X15.  When [applyJsdomExtended] completes on a window, that window
    reads 1280 and 720 for its sizes, holds the two functions of one
    new installation of the frame shim and the observer class, and
    every element that inherits the method through its
    [HTMLElement.prototype] answers the fixed rectangle; the console
    has gained the warning exactly when the window's URL is
    [about:blank]; the handle table and the timers are untouched, and
    so is every other window. *)
Theorem applyJsdomExtended_installs_everything (win : nat) (W W4 : World) :
  applyJsdomExtended win W = (Normal (), W4) →
  let k := length (Raf.closures (raf W)) in
  ∃ w4 l,
    windows W4 !! win = Some w4 ∧ locations W !! win = Some l ∧
    Geometry.read w4 "innerWidth" = Normal (VNumber 1280) ∧
    Geometry.read w4 "innerHeight" = Normal (VNumber 720) ∧
    Geometry.read w4 "requestAnimationFrame"
      = Normal (VFunction (RafRequest k)) ∧
    Geometry.read w4 "cancelAnimationFrame"
      = Normal (VFunction (RafCancel k)) ∧
    Geometry.read w4 "ResizeObserver"
      = Normal (VFunction FakeResizeObserverClass) ∧
    (∀ e, Geometry.inherits_through (Geometry.heap w4) e
            "getBoundingClientRect" (Geometry.HTMLElement_prototype w4) →
          Geometry.getBoundingClientRect w4 e = Normal Geometry.mock_rect) ∧
    raf W4 = snd (Raf.patchRAF win (raf W)) ∧
    console W4 = console W ++ Location.warnings l ∧
    locations W4 = locations W ∧
    (∀ win', win' ≠ win → windows W4 !! win' = windows W !! win').
Proof.
  intros Hp. simpl.
  apply applyJsdomExtended_Normal in Hp
    as (w & w1 & wa & wb & w3 & l & Hw & Hl & Hg & Ha & Hb & Ho & ->).
  destruct (patched_window _ _ _ _ _ _ _ _ Hg Ha Hb Ho)
    as (Hwo & Htg & Hev & Hm & Hr1 & Hr2 & Hr3 & Hr4 & Hr5).
  exists w3, l. simpl. rewrite lookup_insert_eq.
  split_and!; try done.
  - intros e Hin. unfold Geometry.getBoundingClientRect.
    destruct (GeometryFacts.patchGeometry_result w w1 Hg)
      as (_ & _ & _ & (wr & en & cf & Hown & _) & _).
    rewrite <- Hm, <- Htg in Hown.
    by rewrite (GeometryFacts.get_inherited _ _ _ _ _ _ _ _ Hown Hin).
  - intros win' Hne. by rewrite lookup_insert_ne.
Qed.

Lemma applyJsdomExtended_installs_everything_witness :
  ∃ w4,
    windows (snd (applyJsdomExtended 2 two_windows)) !! 2%nat = Some w4 ∧
    Geometry.read w4 "requestAnimationFrame"
      = Normal (VFunction (RafRequest 0)) ∧
    Geometry.getBoundingClientRect w4 4 = Normal Geometry.mock_rect ∧
    console (snd (applyJsdomExtended 2 two_windows)) = [Location.warning].
Proof.
  destruct (applyJsdomExtended_installs_everything 2 two_windows
              (snd (applyJsdomExtended 2 two_windows)))
    as (w4 & l & Hw4 & Hl & _ & _ & Hraf & _ & _ & Hrect & _ & Hcon & _);
    [vm_compute; reflexivity|].
  exists w4. split_and!; [exact Hw4|exact Hraf| |].
  - apply Hrect. vm_compute in Hw4. injection Hw4 as <-.
    exists (mkObject ∅ true [2; 1]%nat), [4%nat], [1%nat].
    split_and!; [vm_compute; reflexivity|reflexivity|].
    constructor; [vm_compute; reflexivity|constructor].
  - rewrite Hcon. vm_compute in Hl. injection Hl as <-. reflexivity.
Defined.

(** X16.  On a window whose [HTMLElement.prototype] has no
    [getBoundingClientRect] of its own, as in every jsdom window, an
    [applyJsdomExtended] that has completed cannot be repeated: the
    second call throws the TypeError of the refused redefinition at its
    first step, so it makes no new installation of the frame shim,
    prints nothing, and leaves the objects of every window as they
    were. *)
Theorem applyJsdomExtended_cannot_be_repeated (win : nat) (W W4 : World)
    (w : Geometry.Window) :
  windows W !! win = Some w →
  own (Geometry.heap w) (Geometry.HTMLElement_prototype w)
      "getBoundingClientRect" = None →
  applyJsdomExtended win W = (Normal (), W4) →
  ∃ W5,
    applyJsdomExtended win W4 =
      (Throw (TypeError "Cannot redefine property: getBoundingClientRect"),
       W5) ∧
    raf W5 = raf W4 ∧ console W5 = console W4 ∧
    locations W5 = locations W4 ∧
    ∀ win', Geometry.heap <$> windows W5 !! win'
            = Geometry.heap <$> windows W4 !! win'.
Proof.
  intros Hw Hnone Hp.
  apply applyJsdomExtended_Normal in Hp
    as (w' & w1 & wa & wb & w3 & l & Hw' & Hl & Hg & Ha & Hb & Ho & ->).
  rewrite Hw in Hw'. injection Hw' as <-.
  destruct (patched_window _ _ _ _ _ _ _ _ Hg Ha Hb Ho)
    as (Hwo & Htg & Hev & Hm & _).
  destruct (GeometryFacts.patchGeometry_result w w1 Hg)
    as (_ & _ & _ & (wr & en & cf & Hown & Hflags) & _).
  destruct (Hflags Hnone) as (-> & -> & ->).
  rewrite <- Hm, <- Htg in Hown.
  assert (Geometry.patchGeometry w3 =
    (Throw (TypeError "Cannot redefine property: getBoundingClientRect"),
     snd (Geometry.new_method w3))) as Hthrow.
  { apply (GeometryFacts.patchGeometry_refused w3 _ Hown). lia. }
  eexists. split_and!.
  - unfold applyJsdomExtended, andThen, patchGeometry, on_window. simpl.
    rewrite lookup_insert_eq, Hthrow. reflexivity.
  - done.
  - done.
  - done.
  - intros win'. simpl. destruct (decide (win' = win)) as [->|Hne].
    + by rewrite !lookup_insert_eq.
    + by rewrite !lookup_insert_ne.
Qed.

Lemma applyJsdomExtended_cannot_be_repeated_witness :
  ∃ W5,
    applyJsdomExtended 1 (snd (applyJsdomExtended 1 two_windows)) =
      (Throw (TypeError "Cannot redefine property: getBoundingClientRect"),
       W5) ∧
    raf W5 = raf (snd (applyJsdomExtended 1 two_windows)).
Proof.
  destruct (applyJsdomExtended_cannot_be_repeated 1 two_windows
              (snd (applyJsdomExtended 1 two_windows)) Geometry.jsdom_window)
    as (W5 & Hthrow & Hraf & _);
    [reflexivity|reflexivity|vm_compute; reflexivity|].
  exists W5. split; [exact Hthrow|exact Hraf].
Defined.

End SetupFacts.
